(** * orderedmap: an insertion-ordered map from strings to values

    A shallow embedding of [orderedmap.go].  The Go code couples a built-in
    [map[string]*list.Element] with a [container/list] doubly linked list and
    hands out iteration handles ([Element]) that keep a pointer into that
    list.  Everything interesting about the package is about pointers and
    aliasing, so the embedding keeps an explicit heap:

    - [elems]: the [list.Element] cells, the sentinel [root] of the list
      included (the address of a [List] is the address of its [root], which
      is its first field);
    - [vals]: the [ElemVal] cells ([&ElemVal{...}] allocates one);
    - [mapper]: the built-in map, a [gmap string ptr].

    Operations are written in a small state monad with failure.  [Panic] is
    a Go run-time panic (nil dereference, failed type assertion), [OutOfFuel]
    is only produced by the fuelled traversal loop.  Every primitive access
    to the heap or to the built-in map counts one tick. *)

From Stdlib Require Import ZArith Lia.
From stdpp Require Import base option list gmap strings pretty.

Open Scope Z_scope.
Open Scope nat_scope.

(** Addresses.  A nil pointer is [None : option ptr]. *)
Abbreviation ptr := nat.

Section Model.
Context {V : Type}.

(** [interface{}]: [None] is the nil interface value. *)
Definition any : Type := option V.

(** [container/list.Element]: [next, prev *Element; list *List; Value any].
    In this package [Value] only ever holds a [*ElemVal] (or nil, for the
    sentinel), so it is a pointer into [vals]. *)
Record ListElement := mkListElement {
  le_next : option ptr;
  le_prev : option ptr;
  le_list : option ptr;
  le_Value : option ptr }.

(** [type ElemVal struct { Key string; Value interface{} }] *)
Record ElemVal := mkElemVal {
  Key : string;
  Value : any }.

(** [type Element struct { elem *list.Element; *ElemVal }]: the embedded
    pointer is the field [pElemVal].  The package never writes to an
    [Element] once it is built, so a [*Element] is the record itself and
    nil is [None : option Element]; what is shared and written is the
    [ElemVal] cell behind [pElemVal]. *)
Record Element := mkElement {
  elem : ptr;
  pElemVal : ptr }.

(** The heap together with the one [OrderedMap] it holds:
    [mapper] and [lister] are the two fields of the struct, [len] is
    [lister.len].  [brk] is the allocation frontier.  Go's [int] is as wide
    as a pointer and every [list.Element] takes several words, so [len]
    cannot wrap around; it is an unbounded [Z]. *)
Record State := mkState {
  mapper : gmap string ptr;
  lister : ptr;
  len : Z;
  elems : gmap ptr ListElement;
  vals : gmap ptr ElemVal;
  brk : ptr }.

Definition blank : State := mkState ∅ 0 0%Z ∅ ∅ 0.

Inductive Res (A : Type) : Type :=
| Ok (a : A) (s : State) (ticks : nat)
| Panic
| OutOfFuel.
Global Arguments Ok {A} a s ticks.
Global Arguments Panic {A}.
Global Arguments OutOfFuel {A}.

Definition M (A : Type) : Type := State → Res A.

Definition ret {A} (a : A) : M A := λ s, Ok a s 0.

Definition bind {A B} (m : M A) (f : A → M B) : M B := λ s,
  match m s with
  | Ok a s1 n =>
      match f a s1 with
      | Ok b s2 n' => Ok b s2 (n + n')
      | Panic => Panic
      | OutOfFuel => OutOfFuel
      end
  | Panic => Panic
  | OutOfFuel => OutOfFuel
  end.

Definition panic {A} : M A := λ _, Panic.
Definition out_of_fuel {A} : M A := λ _, OutOfFuel.

(** Observations of a run. *)
Definition result {A} (r : Res A) : option A :=
  match r with Ok a _ _ => Some a | _ => None end.
Definition final {A} (r : Res A) : option State :=
  match r with Ok _ s _ => Some s | _ => None end.

End Model.

Declare Scope go_scope.
Delimit Scope go_scope with go.
Notation "x <- m ;; k" := (bind m (λ x, k))
  (at level 100, m at next level, k at level 200, right associativity) : go_scope.
Notation "m ;; k" := (bind m (λ _, k))
  (at level 100, k at level 200, right associativity) : go_scope.
Open Scope go_scope.

Section Program.
Context {V : Type}.
Abbreviation State := (@State V).
Abbreviation M := (@M V).
Abbreviation any := (@any V).
Abbreviation ElemVal := (@ElemVal V).

(** ** Field updates *)
Definition with_next (v : option ptr) (e : ListElement) : ListElement :=
  mkListElement v (le_prev e) (le_list e) (le_Value e).
Definition with_prev (v : option ptr) (e : ListElement) : ListElement :=
  mkListElement (le_next e) v (le_list e) (le_Value e).
Definition with_list (v : option ptr) (e : ListElement) : ListElement :=
  mkListElement (le_next e) (le_prev e) v (le_Value e).
Definition with_Value (v : any) (c : ElemVal) : ElemVal :=
  mkElemVal (Key c) v.

Definition set_mapper (m : gmap string ptr) (s : State) : State :=
  mkState m (lister s) (len s) (elems s) (vals s) (brk s).
Definition set_lister (l : ptr) (s : State) : State :=
  mkState (mapper s) l (len s) (elems s) (vals s) (brk s).
Definition set_len (n : Z) (s : State) : State :=
  mkState (mapper s) (lister s) n (elems s) (vals s) (brk s).
Definition set_elems (h : gmap ptr ListElement) (s : State) : State :=
  mkState (mapper s) (lister s) (len s) h (vals s) (brk s).
Definition set_vals (h : gmap ptr ElemVal) (s : State) : State :=
  mkState (mapper s) (lister s) (len s) (elems s) h (brk s).
Definition set_brk (b : ptr) (s : State) : State :=
  mkState (mapper s) (lister s) (len s) (elems s) (vals s) b.

(** ** Primitive accesses, one tick each *)

(** Dereferencing nil panics. *)
Definition deref (p : option ptr) : M ptr :=
  match p with Some a => ret a | None => panic end.

Definition read_elem (a : ptr) : M ListElement := λ s,
  match elems s !! a with Some e => Ok e s 1 | None => Panic end.
Definition write_elem (a : ptr) (f : ListElement → ListElement) : M unit := λ s,
  match elems s !! a with
  | Some e => Ok tt (set_elems (<[a := f e]> (elems s)) s) 1
  | None => Panic
  end.
Definition new_elem (e : ListElement) : M ptr := λ s,
  Ok (brk s) (set_brk (S (brk s)) (set_elems (<[brk s := e]> (elems s)) s)) 1.

Definition read_val (a : ptr) : M ElemVal := λ s,
  match vals s !! a with Some c => Ok c s 1 | None => Panic end.
Definition write_val (a : ptr) (f : ElemVal → ElemVal) : M unit := λ s,
  match vals s !! a with
  | Some c => Ok tt (set_vals (<[a := f c]> (vals s)) s) 1
  | None => Panic
  end.
Definition new_val (c : ElemVal) : M ptr := λ s,
  Ok (brk s) (set_brk (S (brk s)) (set_vals (<[brk s := c]> (vals s)) s)) 1.

Definition read_len : M Z := λ s, Ok (len s) s 1.
Definition write_len (n : Z) : M unit := λ s, Ok tt (set_len n s) 1.
Definition read_lister : M ptr := λ s, Ok (lister s) s 1.

(** [m.mapper[key]], [m.mapper[key] = elem], [delete(m.mapper, key)] *)
Definition map_lookup (key : string) : M (option ptr) := λ s,
  Ok (mapper s !! key) s 1.
Definition map_store (key : string) (p : ptr) : M unit := λ s,
  Ok tt (set_mapper (<[key := p]> (mapper s)) s) 1.
Definition map_delete (key : string) : M unit := λ s,
  Ok tt (set_mapper (delete key (mapper s)) s) 1.

(** ** container/list, the part the package calls

    The list is Go's standard library ([container/list/list.go]); these are
    its functions, statement by statement.  A removed element keeps its
    [Value] but loses [next], [prev] and [list]. *)

(** [func (l *List) Init() *List] *)
Definition list_Init (l : ptr) : M ptr :=
  write_elem l (with_next (Some l));;
  write_elem l (with_prev (Some l));;
  write_len 0%Z;;
  ret l.

(** [func New() *List { return new(List).Init() }] *)
Definition list_New : M ptr :=
  l <- new_elem (mkListElement None None None None);;
  list_Init l.

(** [func (l *List) Len() int { return l.len }] *)
Definition list_Len (l : ptr) : M Z := read_len.

(** [func (l *List) Front() *Element]: nil when [l.len == 0], else
    [l.root.next]. *)
Definition list_Front (l : ptr) : M (option ptr) :=
  n <- read_len;;
  if Z.eqb n 0 then ret None
  else r <- read_elem l;; ret (le_next r).

(** [func (l *List) lazyInit()] *)
Definition list_lazyInit (l : ptr) : M unit :=
  r <- read_elem l;;
  match le_next r with
  | None => list_Init l;; ret tt
  | Some _ => ret tt
  end.

(** [func (l *List) insert(e, at *Element) *Element] *)
Definition list_insert (l e at_ : ptr) : M ptr :=
  write_elem e (with_prev (Some at_));;                       (* e.prev = at *)
  a <- read_elem at_;;
  write_elem e (with_next (le_next a));;                      (* e.next = at.next *)
  x <- read_elem e;; p <- deref (le_prev x);;
  write_elem p (with_next (Some e));;                         (* e.prev.next = e *)
  x <- read_elem e;; n <- deref (le_next x);;
  write_elem n (with_prev (Some e));;                         (* e.next.prev = e *)
  write_elem e (with_list (Some l));;                         (* e.list = l *)
  k <- read_len;; write_len (k + 1)%Z;;                        (* l.len++ *)
  ret e.

(** [func (l *List) insertValue(v any, at *Element) *Element] *)
Definition list_insertValue (l : ptr) (v : option ptr) (at_ : ptr) : M ptr :=
  e <- new_elem (mkListElement None None None v);;
  list_insert l e at_.

(** [func (l *List) PushBack(v any) *Element] *)
Definition list_PushBack (l : ptr) (v : option ptr) : M ptr :=
  list_lazyInit l;;
  r <- read_elem l;; at_ <- deref (le_prev r);;
  list_insertValue l v at_.

(** [func (l *List) remove(e *Element)] *)
Definition list_remove (l e : ptr) : M unit :=
  x <- read_elem e;; p <- deref (le_prev x);;
  write_elem p (with_next (le_next x));;                      (* e.prev.next = e.next *)
  x <- read_elem e;; n <- deref (le_next x);;
  write_elem n (with_prev (le_prev x));;                      (* e.next.prev = e.prev *)
  write_elem e (with_next None);;                             (* e.next = nil *)
  write_elem e (with_prev None);;                             (* e.prev = nil *)
  write_elem e (with_list None);;                             (* e.list = nil *)
  k <- read_len;; write_len (k - 1)%Z.                         (* l.len-- *)

(** [func (l *List) Remove(e *Element) any] *)
Definition list_Remove (l e : ptr) : M (option ptr) :=
  x <- read_elem e;;
  (if decide (le_list x = Some l) then list_remove l e else ret tt);;
  x <- read_elem e;;
  ret (le_Value x).

(** [func (e *Element) Next() *Element]:
    [if p := e.next; e.list != nil && p != &e.list.root { return p }; return nil] *)
Definition list_Element_Next (e : ptr) : M (option ptr) :=
  x <- read_elem e;;
  match le_list x with
  | Some l => if decide (le_next x = Some l) then ret None else ret (le_next x)
  | None => ret None
  end.

(** ** orderedmap.go *)

(** [func New() *OrderedMap] *)
Definition New : M unit :=
  l <- list_New;;
  λ s, Ok tt (set_lister l (set_mapper ∅ s)) 1.

(** [func (m *OrderedMap) Set(key string, value interface{})]
    ([Set] is a reserved word here, hence the underscore). *)
Definition Set_ (key : string) (value : any) : M unit :=
  o <- map_lookup key;;
  match o with
  | None =>
      c <- new_val (mkElemVal key value);;
      l <- read_lister;;
      elem <- list_PushBack l (Some c);;
      map_store key elem
  | Some elem =>
      x <- read_elem elem;;
      c <- deref (le_Value x);;
      write_val c (with_Value value)
  end.

(** [func (m *OrderedMap) Get(key string) (interface{}, bool)] *)
Definition Get (key : string) : M (any * bool) :=
  o <- map_lookup key;;
  match o with
  | None => ret (None, false)
  | Some elem =>
      x <- read_elem elem;;
      c <- deref (le_Value x);;
      v <- read_val c;;
      ret (Value v, true)
  end.

(** [func (m *OrderedMap) Delete(key string)] *)
Definition Delete (key : string) : M unit :=
  o <- map_lookup key;;
  match o with
  | None => ret tt
  | Some elem =>
      l <- read_lister;;
      list_Remove l elem;;
      map_delete key
  end.

(** [func (m *OrderedMap) Len() int { return m.lister.Len() }] *)
Definition Len : M Z :=
  l <- read_lister;;
  list_Len l.

(** The struct literal shared by [First] and [Next]:
    [&Element{elem: p, ElemVal: &ElemVal{Key: pv.Key, Value: pv.Value}}]
    where each [pv] is a separate evaluation of [p.Value], asserted to be
    a pointer to an [ElemVal]. *)
Definition snapshot (p : ptr) : M Element :=
  x <- read_elem p;; c <- deref (le_Value x);; kv <- read_val c;;
  x' <- read_elem p;; c' <- deref (le_Value x');; vv <- read_val c';;
  a <- new_val (mkElemVal (Key kv) (Value vv));;
  ret (mkElement p a).

(** [func (m *OrderedMap) First() *Element] *)
Definition First : M (option Element) :=
  l <- read_lister;;
  front <- list_Front l;;
  match front with
  | None => ret None
  | Some p => e <- snapshot p;; ret (Some e)
  end.

(** [func (e *Element) Next() *Element] *)
Definition Next (e : Element) : M (option Element) :=
  next <- list_Element_Next (elem e);;
  match next with
  | None => ret None
  | Some p => e' <- snapshot p;; ret (Some e')
  end.

(** ** What a client does with an [Element] *)

(** [e.Key], [e.Value] and [e.Value = v]: accesses through the embedded
    [*ElemVal]. *)
Definition Element_Key (e : Element) : M string :=
  c <- read_val (pElemVal e);; ret (Key c).
Definition Element_Value (e : Element) : M any :=
  c <- read_val (pElemVal e);; ret (Value c).
Definition Element_set_Value (e : Element) (v : any) : M unit :=
  write_val (pElemVal e) (with_Value v).

(** The loop of the package comment, from a cursor [e] on:
    [for ; e != nil; e = e.Next() { key := e.Key; value := e.Value }],
    collecting what each step sees.  [fuel] bounds the number of steps. *)
Fixpoint visit (fuel : nat) (e : option Element) : M (list (string * any)) :=
  match e with
  | None => ret []
  | Some e =>
      match fuel with
      | O => out_of_fuel
      | S fuel' =>
          k <- Element_Key e;;
          v <- Element_Value e;;
          n <- Next e;;
          rest <- visit fuel' n;;
          ret ((k, v) :: rest)
      end
  end.

(** [for e := m.First(); e != nil; e = e.Next() { ... }] *)
Definition iterate (fuel : nat) : M (list (string * any)) :=
  e <- First;;
  visit fuel e.

(** ** Histories of calls *)

Inductive op : Type :=
| OpSet (key : string) (value : any)
| OpDelete (key : string).

Definition run_op (o : op) : M unit :=
  match o with
  | OpSet k v => Set_ k v
  | OpDelete k => Delete k
  end.

Fixpoint run_ops (ops : list op) : M unit :=
  match ops with
  | [] => ret tt
  | o :: ops' => run_op o;; run_ops ops'
  end.

(** A map created by [New] and then taken through [ops]. *)
Definition history (ops : list op) : Res unit :=
  (New;; run_ops ops) blank.

(** ** Representation invariant

    [es] lists, in sequence order, the node and the [ElemVal] cell of every
    entry together with the key and value stored there. *)
Record Entry := mkEntry {
  e_node : ptr;
  e_cell : ptr;
  e_key : string;
  e_val : any }.

(** The node at position [i] of the ring: past the end it is the sentinel. *)
Definition node_at (r : ptr) (es : list Entry) (i : nat) : ptr :=
  default r (e_node <$> es !! i).
Definition prev_at (r : ptr) (es : list Entry) (i : nat) : ptr :=
  match i with O => r | S j => node_at r es j end.

Record Rep (s : State) (es : list Entry) : Prop := mkRep {
  rep_nodes : NoDup (lister s :: (e_node <$> es));
  rep_cells : NoDup (e_cell <$> es);
  rep_keys : NoDup (e_key <$> es);
  rep_root :
    elems s !! lister s =
    Some (mkListElement (Some (node_at (lister s) es 0))
                        (Some (prev_at (lister s) es (length es))) None None);
  rep_node : ∀ i x, es !! i = Some x →
    elems s !! e_node x =
    Some (mkListElement (Some (node_at (lister s) es (S i)))
                        (Some (prev_at (lister s) es i))
                        (Some (lister s)) (Some (e_cell x)));
  rep_cell : ∀ x, x ∈ es →
    vals s !! e_cell x = Some (mkElemVal (e_key x) (e_val x));
  rep_index : ∀ k p,
    mapper s !! k = Some p ↔ ∃ x, x ∈ es ∧ e_key x = k ∧ e_node x = p;
  rep_len : len s = Z.of_nat (length es);
  rep_elems_brk : ∀ a, is_Some (elems s !! a) → a < brk s;
  rep_vals_brk : ∀ a, is_Some (vals s !! a) → a < brk s }.

Definition with_val (v : any) (x : Entry) : Entry :=
  mkEntry (e_node x) (e_cell x) (e_key x) v.

(** What the client sees of an entry. *)
Definition view (es : list Entry) : list (string * any) :=
  (λ x, (e_key x, e_val x)) <$> es.

(** What [insert] and [remove] do to a cell other than [e]. *)
Definition relink (at_ n e : ptr) (a : ptr) (c : ListElement) : ListElement :=
  (if decide (a = n) then with_prev (Some e) else id)
    ((if decide (a = at_) then with_next (Some e) else id) c).

Definition unlink (p n : ptr) (a : ptr) (c : ListElement) : ListElement :=
  (if decide (a = n) then with_prev (Some p) else id)
    ((if decide (a = p) then with_next (Some n) else id) c).

(** [salloc s c]: the state after [&ElemVal{...}] allocated the cell [c]. *)
Definition salloc (s : State) (c : ElemVal) : State :=
  set_brk (S (brk s)) (set_vals (<[brk s := c]> (vals s)) s).

(** [holds s es e j kv]: the handle [e] points at the node of entry [j] and
    owns a cell of its own, outside the list, that stores the pair [kv]. *)
Definition holds (s : State) (es : list Entry) (e : Element) (j : nat)
    (kv : string * any) : Prop :=
  ∃ x, es !! j = Some x ∧ elem e = e_node x ∧
       vals s !! pElemVal e = Some (mkElemVal kv.1 kv.2) ∧
       pElemVal e ∉ e_cell <$> es.

(** [ext s s']: [s'] is [s] with more cells allocated in [vals] and nothing
    else changed; this is all a traversal does to the heap. *)
Definition ext (s s' : State) : Prop :=
  mapper s' = mapper s ∧ lister s' = lister s ∧ len s' = len s ∧
  elems s' = elems s ∧ brk s ≤ brk s' ∧
  ∀ a, a < brk s → vals s' !! a = vals s !! a.

(** The cursor after [j] steps:
    [e := m.First(); for i := 0; i < j && e != nil; i++ { e = e.Next() }] *)
Fixpoint advance (j : nat) (e : option Element) : M (option Element) :=
  match j with
  | O => ret e
  | S j' =>
      match e with
      | None => ret None
      | Some e' => n <- Next e';; advance j' n
      end
  end.

Definition cursor_at (j : nat) : M (option Element) :=
  e <- First;;
  advance j e.

(** One round of the deletion pattern of the package comment, at the
    [j]-th entry, followed by the rest of the traversal:
    [key := e.Key; next = e.Next(); m.Delete(key)], then
    [for e = next; e != nil; e = e.Next() { ... }]. *)
Definition delete_at_cursor (j fuel : nat) : M (list (string * any)) :=
  oe <- cursor_at j;;
  match oe with
  | None => panic
  | Some e =>
      key <- Element_Key e;;
      next <- Next e;;
      Delete key;;
      visit fuel next
  end.

(** A client that holds the [j]-th handle [e] across a [Set(k, v')] and then
    assigns [e.Value = x]; it reports [e.Value] before and after the [Set],
    [Get(k)] before and after the assignment, and [e.Value] at the end. *)
Definition probe (j : nat) (k : string) (v' x : any)
    : M (any * any * (any * bool) * (any * bool) * any) :=
  oe <- cursor_at j;;
  match oe with
  | None => panic
  | Some e =>
      v0 <- Element_Value e;;
      Set_ k v';;
      v1 <- Element_Value e;;
      g1 <- Get k;;
      Element_set_Value e x;;
      g2 <- Get k;;
      v2 <- Element_Value e;;
      ret (v0, v1, g1, g2, v2)
  end.

Definition is_nil {A} (o : option A) : bool :=
  match o with None => true | Some _ => false end.

(** The keys a history deletes. *)
Definition deleted_keys (ops : list op) : list string :=
  omap (λ o, match o with OpDelete k => Some k | OpSet _ _ => None end) ops.

(** [e.Next() == nil] for the [j]-th handle [e] of a traversal, asked after
    the calls [ops] have been made on the map. *)
Definition next_is_nil (j : nat) (ops : list op) : M bool :=
  oe <- cursor_at j;;
  match oe with
  | None => panic
  | Some e => run_ops ops;; n <- Next e;; ret (is_nil n)
  end.

(** The misuse the package comment warns of: delete the entry the cursor
    stands at, and ask for [Next] afterwards.  Reports the cursor's key,
    whether [Next] was nil, and the sequence at that moment. *)
Definition stale_next (fuel : nat) : M (string * bool * list (string * any)) :=
  oe <- First;;
  match oe with
  | None => panic
  | Some e =>
      key <- Element_Key e;;
      Delete key;;
      rest <- iterate fuel;;
      n <- Next e;;
      ret (key, is_nil n, rest)
  end.

(** Of one observation [(key, nil, sequence)]: [Next] was nil exactly when
    the cursor's key is that of the last entry of the sequence. *)
Definition next_nil_iff_last
    (r : option (string * bool * list (string * any))) : Prop :=
  ∀ k b l0, r = Some (k, b, l0) → (b = true ↔ last l0.*1 = Some k).

Definition first_is_nil : M bool :=
  e <- First;; ret (is_nil e).

(** ** The specification's view: an association list in insertion order *)

Fixpoint spec_set (k : string) (v : any) (l : list (string * any))
    : list (string * any) :=
  match l with
  | [] => [(k, v)]
  | (k', v') :: l' =>
      if decide (k' = k) then (k', v) :: l' else (k', v') :: spec_set k v l'
  end.

Fixpoint spec_delete (k : string) (l : list (string * any))
    : list (string * any) :=
  match l with
  | [] => []
  | (k', v') :: l' =>
      if decide (k' = k) then l' else (k', v') :: spec_delete k l'
  end.

Definition spec_op (o : op) (l : list (string * any)) : list (string * any) :=
  match o with
  | OpSet k v => spec_set k v l
  | OpDelete k => spec_delete k l
  end.

Definition spec_run (ops : list op) : list (string * any) :=
  fold_left (λ l o, spec_op o l) ops [].

(** The set of keys currently present, by the history alone. *)
Definition keys_op (ks : gset string) (o : op) : gset string :=
  match o with
  | OpSet k _ => {[k]} ∪ ks
  | OpDelete k => ks ∖ {[k]}
  end.

Definition keys_after (ops : list op) : gset string :=
  fold_left keys_op ops ∅.

(** [Get] on the association list. *)
Fixpoint spec_get (k : string) (l : list (string * any)) : any * bool :=
  match l with
  | [] => (None, false)
  | (k', v') :: l' => if decide (k' = k) then (v', true) else spec_get k l'
  end.

(** ** Further clients *)

(** The deletion loop of the package comment, from the cursor [e] on:
    [for ; e != nil; e = next { key := e.Key; next = e.Next(); m.Delete(key) }],
    collecting the keys it deleted. *)
Fixpoint drain_from (fuel : nat) (e : option Element) : M (list string) :=
  match e with
  | None => ret []
  | Some e =>
      match fuel with
      | O => out_of_fuel
      | S fuel' =>
          key <- Element_Key e;;
          next <- Next e;;
          Delete key;;
          rest <- drain_from fuel' next;;
          ret (key :: rest)
      end
  end.

(** [var next *Element; for e := m.First(); e != nil; e = next { ... }] *)
Definition drain (fuel : nat) : M (list string) :=
  e <- First;;
  drain_from fuel e.

(** A client that keeps the [j]-th handle [e], deletes the handle's own key,
    makes the calls [ops] and then asks for [e.Next()], [e.Key] and
    [e.Value]; it reports the key it deleted, whether [Next] was nil, and
    the two fields. *)
Definition next_after_delete (j : nat) (ops : list op)
    : M (string * bool * string * any) :=
  oe <- cursor_at j;;
  match oe with
  | None => panic
  | Some e =>
      key <- Element_Key e;;
      Delete key;;
      run_ops ops;;
      n <- Next e;;
      k <- Element_Key e;;
      v <- Element_Value e;;
      ret (key, is_nil n, k, v)
  end.

(** [cost_of m] runs [m] and reports the ticks it took. *)
Definition cost_of {A} (m : M A) : M nat := λ s,
  match m s with
  | Ok _ s' c => Ok c s' c
  | Panic => Panic
  | OutOfFuel => OutOfFuel
  end.

(** [detached s es a]: the list element [a] is allocated but belongs to no
    list, which is how [Remove] leaves the element it took out. *)
Definition detached (s : State) (es : list Entry) (a : ptr) : Prop :=
  (a ∉ lister s :: (e_node <$> es)) ∧
  ∃ c, elems s !! a = Some c ∧ le_list c = None.

(** ** The channel iterator of the earlier version of the package

    [Iter] makes a channel buffered for [chbufSize] items and starts a
    goroutine that walks the list, sends a copy of every [ElemVal] into the
    channel and closes it at the end; the caller ranges over the channel.
    These are two threads.  Each takes one step at a time, in the order a
    schedule gives; a thread that is blocked loses its turn.  Nothing else
    touches the map meanwhile, so the heap is only read. *)

Definition chbufSize : nat := 32.

(** Where the goroutine stands in
    [for e := m.lister.Front(); e != nil; e = e.Next() { ch <- ... }; close(ch)]. *)
Inductive Producer : Type :=
| PFront                     (* before [e := m.lister.Front()] *)
| PTest (e : option ptr)     (* at the test [e != nil] *)
| PStep (e : ptr)            (* the send is done, before [e = e.Next()] *)
| PReturned                  (* after [close(ch)] *)
| PPanicked.

(** Where the caller stands in [for item := range ch { ... }]. *)
Inductive Consumer : Type :=
| CRange                     (* waiting for the next item *)
| CEnded                     (* the channel was closed and empty *)
| CBroke.                    (* the body left the loop with [break] *)

Record Sys := mkSys {
  heap : State;
  producer : Producer;
  ch_buf : list ElemVal;     (* the buffer of the channel, oldest first *)
  ch_closed : bool;
  consumer : Consumer;
  got : list ElemVal }.      (* the items the loop body has seen *)

(** The operand of the send: the struct the element's [Value] points at. *)
Definition load_item (e : ptr) : M ElemVal :=
  x <- read_elem e;; c <- deref (le_Value x);; read_val c.

Definition set_producer (p : Producer) (h : State) (st : Sys) : Sys :=
  mkSys h p (ch_buf st) (ch_closed st) (consumer st) (got st).

(** One step of the goroutine; [None] when the send blocks on a full buffer
    and after the goroutine is gone. *)
Definition prod_step (st : Sys) : option Sys :=
  match producer st with
  | PFront =>
      match (l <- read_lister;; list_Front l) (heap st) with
      | Ok e h _ => Some (set_producer (PTest e) h st)
      | _ => Some (set_producer PPanicked (heap st) st)
      end
  | PTest (Some e) =>
      if decide (length (ch_buf st) < chbufSize) then
        match load_item e (heap st) with
        | Ok v h _ =>
            Some (mkSys h (PStep e) (ch_buf st ++ [v]) (ch_closed st)
                        (consumer st) (got st))
        | _ => Some (set_producer PPanicked (heap st) st)
        end
      else None
  | PTest None =>
      Some (mkSys (heap st) PReturned (ch_buf st) true (consumer st) (got st))
  | PStep e =>
      match list_Element_Next e (heap st) with
      | Ok n h _ => Some (set_producer (PTest n) h st)
      | _ => Some (set_producer PPanicked (heap st) st)
      end
  | PReturned | PPanicked => None
  end.

(** One step of the caller's loop, whose body breaks at an item with
    [stop item]; [None] when the receive blocks on an empty open channel and
    after the loop is left. *)
Definition cons_step (stop : ElemVal → bool) (st : Sys) : option Sys :=
  match consumer st with
  | CRange =>
      match ch_buf st with
      | v :: b =>
          Some (mkSys (heap st) (producer st) b (ch_closed st)
                      (if stop v then CBroke else CRange) (got st ++ [v]))
      | [] =>
          if ch_closed st
          then Some (mkSys (heap st) (producer st) [] true CEnded (got st))
          else None
      end
  | CEnded | CBroke => None
  end.

Inductive Tid : Type := TProducer | TConsumer.

Definition step (stop : ElemVal → bool) (t : Tid) (st : Sys) : option Sys :=
  match t with
  | TProducer => prod_step st
  | TConsumer => cons_step stop st
  end.

(** The system after the turns of [sched]. *)
Fixpoint run (stop : ElemVal → bool) (sched : list Tid) (st : Sys) : Sys :=
  match sched with
  | [] => st
  | t :: sched' => run stop sched' (default st (step stop t st))
  end.

(** The number of turns of [sched] in which the thread did take a step. *)
Fixpoint work (stop : ElemVal → bool) (sched : list Tid) (st : Sys) : nat :=
  match sched with
  | [] => 0
  | t :: sched' =>
      match step stop t st with
      | Some st' => S (work stop sched' st')
      | None => work stop sched' st
      end
  end.

(** [m.Iter()] has returned: the channel is empty and open, the goroutine
    is about to start, the caller about to range. *)
Definition Iter (s : State) : Sys := mkSys s PFront [] false CRange [].

(** The two threads in turn, [k] times. *)
Fixpoint round_robin (k : nat) : list Tid :=
  match k with
  | O => []
  | S k' => TProducer :: TConsumer :: round_robin k'
  end.

Definition item_of (kv : string * any) : ElemVal := mkElemVal kv.1 kv.2.

(** The items that went into the channel so far. *)
Definition sent (st : Sys) : nat := length (got st) + length (ch_buf st).

Record IterInv (s : State) (es : list Entry) (stop : ElemVal → bool)
    (st : Sys) : Prop := mkIterInv {
  inv_heap : heap st = s;
  inv_items : got st ++ ch_buf st = take (sent st) (item_of <$> view es);
  inv_sent : sent st ≤ length es;
  inv_buf : length (ch_buf st) ≤ chbufSize;
  inv_prod :
    match producer st with
    | PFront => sent st = 0
    | PTest e => e = e_node <$> es !! sent st
    | PStep e => ∃ i, sent st = S i ∧ Some e = e_node <$> es !! i
    | PReturned => sent st = length es
    | PPanicked => False
    end;
  inv_closed : ch_closed st = true ↔ producer st = PReturned;
  inv_cons :
    match consumer st with
    | CRange => ∀ v, v ∈ got st → stop v = false
    | CEnded =>
        ch_closed st = true ∧ ch_buf st = [] ∧ ∀ v, v ∈ got st → stop v = false
    | CBroke =>
        ∃ g v, got st = g ++ [v] ∧ stop v = true ∧ ∀ w, w ∈ g → stop w = false
    end }.

(** The steps the two threads have still to take on a list of [n] items. *)
Definition todo (n : nat) (st : Sys) : nat :=
  match producer st with
  | PFront => 2 * n + 2
  | PTest _ => 2 * (n - sent st) + 1
  | PStep _ => 2 * (n - sent st) + 2
  | PReturned | PPanicked => 0
  end +
  match consumer st with
  | CRange => (n - length (got st)) + 1
  | CEnded | CBroke => 0
  end.

End Program.

(** A concrete history, with integer values: insert ["a"], ["b"] and ["c"]
    in that order. *)
Definition abc : list (@op Z) :=
  [OpSet "a" (Some 1%Z); OpSet "b" (Some 2%Z); OpSet "c" (Some 3%Z)].

(** [TestLen] and [TestIterator] fill the map by
    [for i := 0; i < n; i++ { m.Set(strconv.Itoa(i), i) }]. *)
Definition numbered (n : nat) : list (@op Z) :=
  (λ i, OpSet (pretty i) (Some (Z.of_nat i))) <$> seq 0 n.

(** Closes a decidable goal on closed terms by evaluation. *)
Ltac by_decide :=
  match goal with |- ?P => apply (bool_decide_unpack P); vm_compute; exact I end.

Section Proofs.
Context {V : Type}.
Abbreviation State := (@State V).
Abbreviation M := (@M V).
Abbreviation any := (@any V).
Abbreviation ElemVal := (@ElemVal V).

Implicit Types (s : State) (a e p n : ptr) (h : gmap ptr ListElement).

Ltac heap_step :=
  repeat first
    [ progress simpl
    | rewrite lookup_insert_eq
    | rewrite lookup_insert_ne by (congruence || done)
    | match goal with H : _ !! _ = Some _ |- _ => rewrite H end ].

Ltac heap_done :=
  repeat case_decide; simplify_eq; simpl; try done;
  try (by repeat match goal with H : _ = Some _ |- _ => rewrite H end);
  try (by match goal with |- context [?m !! ?a] => destruct (m !! a) end).

Lemma list_insert_spec s l e at_ ce ca n :
  elems s !! e = Some ce →
  elems s !! at_ = Some ca →
  le_next ca = Some n →
  e ≠ at_ → e ≠ n →
  is_Some (elems s !! n) →
  ∃ h k,
    list_insert l e at_ s = Ok e (set_len (len s + 1)%Z (set_elems h s)) k ∧
    k ≤ 12 ∧
    ∀ a, h !! a =
         if decide (a = e)
         then Some (mkListElement (Some n) (Some at_) (Some l) (le_Value ce))
         else relink at_ n e a <$> elems s !! a.
Proof.
  intros He Hat Hn Hne1 Hne2 [cn Hcn].
  unfold list_insert, bind, write_elem, read_elem, read_len, write_len, deref, ret.
  destruct (decide (n = at_)) as [->|Hne3]; [clear Hcn|];
    heap_step; rewrite Hn; heap_step;
    (eexists _, _; split; [reflexivity|]; split; [lia|]);
    intros a; unfold relink; rewrite !lookup_insert; heap_done.
Qed.

Lemma list_remove_spec s l e ce p n :
  elems s !! e = Some ce →
  le_prev ce = Some p → le_next ce = Some n →
  e ≠ p → e ≠ n →
  is_Some (elems s !! p) → is_Some (elems s !! n) →
  ∃ h k,
    list_remove l e s = Ok tt (set_len (len s - 1)%Z (set_elems h s)) k ∧
    k ≤ 12 ∧
    ∀ a, h !! a =
         if decide (a = e)
         then Some (mkListElement None None None (le_Value ce))
         else unlink p n a <$> elems s !! a.
Proof.
  intros He Hp Hn Hne1 Hne2 [cp Hcp] [cn Hcn].
  unfold list_remove, bind, write_elem, read_elem, read_len, write_len, deref, ret.
  destruct (decide (n = p)) as [->|Hne3]; [rewrite Hcp in Hcn; simplify_eq|];
    heap_step; rewrite Hp; heap_step; rewrite Hn; heap_step;
    (eexists _, _; split; [reflexivity|]; split; [lia|]);
    intros a; unfold unlink; rewrite !lookup_insert; heap_done. 
Qed.

(** ** Positions in the ring *)

Abbreviation Entry := (@Entry V).
Abbreviation op := (@op V).
Implicit Types (es : list Entry) (x y : Entry) (ops : list op) (o : op).

Lemma node_at_lookup r es i x : es !! i = Some x → node_at r es i = e_node x.
Proof. unfold node_at. by intros ->. Qed.

Lemma node_at_ge r es i : length es ≤ i → node_at r es i = r.
Proof. intros H. unfold node_at. by rewrite lookup_ge_None_2. Qed.

Lemma node_at_app_l r es es' i :
  i < length es → node_at r (es ++ es') i = node_at r es i.
Proof. intros H. unfold node_at. by rewrite lookup_app_l. Qed.

Lemma node_at_app_r r es es' i :
  node_at r (es ++ es') (length es + i) = node_at r es' i.
Proof.
  unfold node_at. rewrite lookup_app_r by lia.
  by replace (length es + i - length es) with i by lia.
Qed.

Lemma node_at_elem r es i : i < length es → node_at r es i ∈ e_node <$> es.
Proof.
  intros H. destruct (lookup_lt_is_Some_2 es i H) as [x Hx].
  rewrite (node_at_lookup _ _ _ _ Hx).
  apply list_elem_of_fmap. exists x. split; [done|].
  by eapply list_elem_of_lookup_2.
Qed.

Lemma node_at_ne_root r es i :
  NoDup (r :: (e_node <$> es)) → i < length es → node_at r es i ≠ r.
Proof.
  intros Hnd Hi Heq. apply NoDup_cons in Hnd as [Hr _].
  apply Hr. rewrite <- Heq. by apply node_at_elem.
Qed.

Lemma node_at_inj r es i j :
  NoDup (r :: (e_node <$> es)) → i < length es → j < length es →
  node_at r es i = node_at r es j → i = j.
Proof.
  intros Hnd Hi Hj Heq. apply NoDup_cons in Hnd as [_ Hnd].
  destruct (lookup_lt_is_Some_2 es i Hi) as [x Hx].
  destruct (lookup_lt_is_Some_2 es j Hj) as [y Hy].
  rewrite (node_at_lookup _ _ _ _ Hx), (node_at_lookup _ _ _ _ Hy) in Heq.
  eapply NoDup_lookup; [exact Hnd| |].
  - rewrite list_lookup_fmap, Hx. reflexivity.
  - rewrite list_lookup_fmap, Hy. simpl. by rewrite Heq.
Qed.

Lemma prev_at_ne r es i :
  NoDup (r :: (e_node <$> es)) → i < length es →
  prev_at r es i ≠ node_at r es i.
Proof.
  intros Hnd Hi. destruct i as [|i]; simpl.
  - intros Heq. by eapply node_at_ne_root.
  - intros Heq. apply node_at_inj in Heq; [lia|done|lia|lia].
Qed.

Lemma next_at_ne r es i :
  NoDup (r :: (e_node <$> es)) → i < length es →
  node_at r es (S i) ≠ node_at r es i.
Proof.
  intros Hnd Hi Heq. destruct (decide (S i < length es)).
  - apply node_at_inj in Heq; [lia|done|lia|lia].
  - rewrite (node_at_ge _ _ (S i)) in Heq by lia.
    by eapply node_at_ne_root.
Qed.

Lemma node_at_snoc r es y : node_at r (es ++ [y]) (length es) = e_node y.
Proof.
  unfold node_at. rewrite lookup_app_r by lia.
  by rewrite Nat.sub_diag.
Qed.

Lemma prev_at_snoc r es y i :
  i ≤ length es → prev_at r (es ++ [y]) i = prev_at r es i.
Proof. intros H. destruct i; simpl; [done|]. apply node_at_app_l. lia. Qed.

Lemma prev_at_last_ne_root r es :
  NoDup (r :: (e_node <$> es)) → es ≠ [] → prev_at r es (length es) ≠ r.
Proof.
  intros Hnd Hne. destruct es as [|x es']; [done|]. simpl length.
  simpl prev_at. apply node_at_ne_root; [done|]. simpl. lia.
Qed.

(** Every position of the ring holds an allocated cell. *)
Lemma rep_node_at s es i : Rep s es → is_Some (elems s !! node_at (lister s) es i).
Proof.
  intros HR. destruct (es !! i) as [x|] eqn:Hx.
  - rewrite (node_at_lookup _ _ _ _ Hx). erewrite rep_node; eauto.
  - rewrite node_at_ge by by apply lookup_ge_None. erewrite rep_root; eauto.
Qed.

Lemma rep_prev_at s es i : Rep s es → is_Some (elems s !! prev_at (lister s) es i).
Proof.
  intros HR. destruct i; simpl; [|by apply rep_node_at].
  erewrite rep_root; eauto.
Qed.

(** The cell before position [length es] (the last node, or the sentinel)
    points forward to the sentinel. *)
Lemma rep_last_next s es :
  Rep s es →
  ∃ c, elems s !! prev_at (lister s) es (length es) = Some c ∧
       le_next c = Some (lister s).
Proof.
  intros HR. destruct (decide (length es = 0)) as [Hz|Hnz].
  - rewrite Hz. simpl. eexists. split; [by apply rep_root|].
    simpl. rewrite node_at_ge by lia. done.
  - destruct (length es) as [|m] eqn:Hm; [done|]. simpl.
    destruct (lookup_lt_is_Some_2 es m) as [x Hx]; [lia|].
    rewrite (node_at_lookup _ _ _ _ Hx).
    eexists. split; [by eapply rep_node|]. simpl.
    rewrite node_at_ge by lia. done.
Qed.

(** ** [New] *)

Lemma New_run :
  ∃ s, @New V blank = Ok tt s 5 ∧ Rep s [].
Proof.
  eexists. split; [reflexivity|].
  split; simpl; try done.
  - apply NoDup_singleton.
  - apply NoDup_nil_2.
  - apply NoDup_nil_2.
  - intros x Hx. by apply elem_of_nil in Hx.
  - intros k p. rewrite lookup_empty. split; [done|].
    intros (x & Hx & _). by apply elem_of_nil in Hx.
  - intros a [c Hc]. rewrite !lookup_insert in Hc.
    repeat case_decide; simplify_eq; lia.
  - intros a [c Hc]. done.
Qed.

(** ** [Set] of an absent key *)

Lemma rep_key_absent s es k :
  Rep s es → mapper s !! k = None → k ∉ e_key <$> es.
Proof.
  intros HR Hk Hin. apply list_elem_of_fmap in Hin as (x & -> & Hx).
  assert (mapper s !! e_key x = Some (e_node x)) as Hm.
  { apply (rep_index _ _ HR). eauto. }
  congruence.
Qed.

Lemma rep_node_lt s es x : Rep s es → x ∈ es → e_node x < brk s.
Proof.
  intros HR Hx. apply list_elem_of_lookup in Hx as [i Hi].
  apply (rep_elems_brk _ _ HR). erewrite rep_node; eauto.
Qed.

Lemma rep_cell_lt s es x : Rep s es → x ∈ es → e_cell x < brk s.
Proof.
  intros HR Hx. apply (rep_vals_brk _ _ HR). erewrite rep_cell; eauto.
Qed.

Lemma rep_root_lt s es : Rep s es → lister s < brk s.
Proof.
  intros HR. apply (rep_elems_brk _ _ HR). erewrite rep_root; eauto.
Qed.

Lemma Set_absent s es k v :
  Rep s es → mapper s !! k = None →
  ∃ s' c,
    Set_ k v s = Ok tt s' c ∧ c ≤ 24 ∧
    Rep s' (es ++ [mkEntry (S (brk s)) (brk s) k v]) ∧
    vals s' = <[brk s := mkElemVal k v]> (vals s) ∧
    brk s' = S (S (brk s)) ∧ lister s' = lister s ∧
    mapper s' = <[k := S (brk s)]> (mapper s).
Proof.
  intros HR Hk.
  destruct (rep_last_next _ _ HR) as (ca & Hca & Hcan).
  pose proof (rep_root _ _ HR) as Hroot.
  pose proof (rep_root_lt _ _ HR) as Hrlt.
  assert (prev_at (lister s) es (length es) < brk s) as Htlt.
  { apply (rep_elems_brk _ _ HR (prev_at (lister s) es (length es))).
    rewrite Hca. eauto. }
  set (s2 := set_brk (S (S (brk s)))
               (set_elems (<[S (brk s) := mkListElement None None None (Some (brk s))]> (elems s))
                  (set_vals (<[brk s := mkElemVal k v]> (vals s)) s))).
  destruct (list_insert_spec s2 (lister s) (S (brk s))
              (prev_at (lister s) es (length es))
              (mkListElement None None None (Some (brk s))) ca (lister s))
    as (h & c & Hrun & Hc & Hh).
  { simpl. by rewrite lookup_insert_eq. }
  { simpl. rewrite lookup_insert_ne by lia. done. }
  { done. }
  { lia. }
  { lia. }
  { simpl. rewrite lookup_insert_ne by lia. rewrite Hroot. eauto. }
  unfold Set_, bind, map_lookup. rewrite Hk.
  unfold new_val, read_lister, list_PushBack, list_lazyInit, bind, read_elem.
  unfold list_insertValue, list_Init, deref, ret, bind, new_elem, map_store.
  repeat first [progress simpl | rewrite Hroot].
  match goal with |- context [list_insert _ _ _ ?st] => change st with s2 end.
  rewrite Hrun. simpl.
  eexists _, _. split; [reflexivity|]. split; [lia|].
  split; [|done].
  set (q := S (brk s)) in *.
  set (t := prev_at (lister s) es (length es)) in *.
  assert (∀ a, a ≠ q → h !! a = relink t (lister s) q a <$> elems s !! a) as Hh'.
  { intros a Ha. rewrite Hh. rewrite decide_False by done.
    simpl. by rewrite lookup_insert_ne. }
  assert (∀ x, x ∈ es → e_node x ≠ q) as Hnq.
  { intros x Hx. pose proof (rep_node_lt _ _ _ HR Hx). unfold q. lia. }
  pose proof (rep_nodes _ _ HR) as Hnd.
  assert (lister s ≠ q) as Hrq by (unfold q; lia).
  assert (es ≠ [] → lister s ≠ t) as Hrt.
  { intros Hne Heq. by eapply prev_at_last_ne_root. }
  split; simpl.
  - rewrite fmap_app. simpl. rewrite app_comm_cons.
    apply NoDup_app. split; [done|]. split; [|apply NoDup_singleton].
    intros a Ha Hq. apply list_elem_of_singleton in Hq. subst a.
    apply elem_of_cons in Ha as [Ha|Ha]; [unfold q in *; lia|].
    apply list_elem_of_fmap in Ha as (x & Hx1 & Hx2). by eapply Hnq.
  - rewrite fmap_app. simpl.
    apply NoDup_app. split; [by apply (rep_cells _ _ HR)|].
    split; [|apply NoDup_singleton].
    intros a Ha Hq. apply list_elem_of_singleton in Hq. subst a.
    apply list_elem_of_fmap in Ha as (x & Hx1 & Hx2).
    pose proof (rep_cell_lt _ _ _ HR Hx2). lia.
  - rewrite fmap_app. simpl.
    apply NoDup_app. split; [by apply (rep_keys _ _ HR)|].
    split; [|apply NoDup_singleton].
    intros a Ha Hq. apply list_elem_of_singleton in Hq. subst a.
    by eapply rep_key_absent.
  - rewrite Hh' by done. rewrite Hroot. simpl. unfold relink.
    rewrite decide_True by done.
    rewrite length_app. simpl length.
    replace (length es + 1) with (S (length es)) by lia.
    simpl prev_at. rewrite node_at_snoc. simpl e_node.
    destruct (decide (es = [])) as [->|Hne].
    + rewrite decide_True by reflexivity. reflexivity.
    + rewrite decide_False by auto.
      rewrite node_at_app_l by (destruct es; simpl; [done|lia]). done.
  - intros i x Hx. destruct (decide (i < length es)) as [Hi|Hi].
    + rewrite lookup_app_l in Hx by done.
      assert (x ∈ es) as Hxin by by eapply list_elem_of_lookup_2.
      rewrite Hh' by auto. rewrite (rep_node _ _ HR i x Hx). simpl.
      rewrite prev_at_snoc by lia. unfold relink.
      assert (e_node x = node_at (lister s) es i) as Hxi
        by by rewrite (node_at_lookup _ _ _ _ Hx).
      rewrite (decide_False (P := e_node x = lister s)); last first.
      { rewrite Hxi. by apply node_at_ne_root. }
      destruct (decide (S i = length es)) as [Hlast|Hnl].
      * rewrite decide_True; last first.
        { unfold t. rewrite <- Hlast. simpl. done. }
        simpl. rewrite Hlast, node_at_snoc. done.
      * rewrite decide_False; last first.
        { rewrite Hxi. unfold t. destruct (length es) as [|m] eqn:Hm; [lia|].
          simpl. intros Heq. apply node_at_inj in Heq; [lia|done|lia|lia]. }
        simpl. rewrite node_at_app_l by lia. done.
    + apply lookup_lt_Some in Hx as Hlt. rewrite length_app in Hlt. simpl in Hlt.
      assert (i = length es) as -> by lia.
      rewrite lookup_app_r in Hx by lia. rewrite Nat.sub_diag in Hx.
      simpl in Hx. simplify_eq. simpl.
      rewrite Hh. rewrite decide_True by done. simpl.
      rewrite node_at_ge by (rewrite length_app; simpl; lia).
      rewrite prev_at_snoc by lia. done.
  - intros x Hx. apply elem_of_app in Hx as [Hx|Hx].
    + pose proof (rep_cell_lt _ _ _ HR Hx).
      rewrite lookup_insert_ne by lia. by apply (rep_cell _ _ HR).
    + apply list_elem_of_singleton in Hx. subst x. simpl.
      by rewrite lookup_insert_eq.
  - intros k' p. rewrite lookup_insert. case_decide as Hkk.
    + subst k'. split.
      * intros [= <-]. exists (mkEntry q (brk s) k v). split; [|done].
        apply elem_of_app. right. by apply list_elem_of_singleton.
      * intros (x & Hx & Hxk & Hxp). apply elem_of_app in Hx as [Hx|Hx].
        -- exfalso. eapply rep_key_absent; [done..|].
           apply list_elem_of_fmap. eauto.
        -- apply list_elem_of_singleton in Hx. subst x. simpl in *. by subst.
    + rewrite (rep_index _ _ HR). split.
      * intros (x & Hx & Hxk & Hxp). exists x. split; [|done].
        apply elem_of_app. by left.
      * intros (x & Hx & Hxk & Hxp). apply elem_of_app in Hx as [Hx|Hx]; [eauto|].
        apply list_elem_of_singleton in Hx. subst x. simpl in *. congruence.
  - rewrite length_app. simpl. rewrite (rep_len _ _ HR). lia.
  - intros a [c' Hc']. destruct (decide (a = q)) as [->|Hne]; [unfold q; lia|].
    rewrite Hh' in Hc' by done.
    destruct (elems s !! a) eqn:Ha; [|done].
    assert (a < brk s) by (apply (rep_elems_brk _ _ HR a); rewrite Ha; eauto).
    lia.
  - intros a [c' Hc']. rewrite lookup_insert in Hc'. case_decide; [lia|].
    assert (a < brk s) by (apply (rep_vals_brk _ _ HR a); rewrite Hc'; eauto).
    lia.
Qed.


(** ** [Set] of a present key *)

Lemma fmap_insert_same {B} (f : Entry → B) es i x y :
  es !! i = Some x → f y = f x → f <$> <[i:=y]> es = f <$> es.
Proof.
  intros Hx Hf. rewrite list_fmap_insert, Hf.
  apply list_insert_id. by rewrite list_lookup_fmap, Hx.
Qed.

Lemma node_at_insert r es i x y j :
  es !! i = Some x → e_node y = e_node x →
  node_at r (<[i:=y]> es) j = node_at r es j.
Proof.
  intros Hx Hy. unfold node_at. rewrite <- !list_lookup_fmap.
  by erewrite fmap_insert_same.
Qed.

Lemma prev_at_insert r es i x y j :
  es !! i = Some x → e_node y = e_node x →
  prev_at r (<[i:=y]> es) j = prev_at r es j.
Proof. intros Hx Hy. destruct j; simpl; [done|]. by eapply node_at_insert. Qed.

Lemma rep_cell_inj s es i j x y :
  Rep s es → es !! i = Some x → es !! j = Some y → e_cell x = e_cell y → i = j.
Proof.
  intros HR Hx Hy Heq. eapply NoDup_lookup; [exact (rep_cells _ _ HR)| |].
  - rewrite list_lookup_fmap, Hx. reflexivity.
  - rewrite list_lookup_fmap, Hy. simpl. by rewrite Heq.
Qed.

Lemma rep_key_inj s es i j x y :
  Rep s es → es !! i = Some x → es !! j = Some y → e_key x = e_key y → i = j.
Proof.
  intros HR Hx Hy Heq. eapply NoDup_lookup; [exact (rep_keys _ _ HR)| |].
  - rewrite list_lookup_fmap, Hx. reflexivity.
  - rewrite list_lookup_fmap, Hy. simpl. by rewrite Heq.
Qed.

Lemma rep_mapper s es i x :
  Rep s es → es !! i = Some x → mapper s !! e_key x = Some (e_node x).
Proof.
  intros HR Hx. apply (rep_index _ _ HR). exists x.
  split; [by eapply list_elem_of_lookup_2|done].
Qed.

Lemma Set_present s es i x v :
  Rep s es → es !! i = Some x →
  Set_ (e_key x) v s =
    Ok tt (set_vals (<[e_cell x := mkElemVal (e_key x) v]> (vals s)) s) 3 ∧
  Rep (set_vals (<[e_cell x := mkElemVal (e_key x) v]> (vals s)) s)
      (<[i := with_val v x]> es).
Proof.
  intros HR Hx.
  assert (x ∈ es) as Hxin by by eapply list_elem_of_lookup_2.
  split.
  { unfold Set_, bind, map_lookup, read_elem, deref, write_val, ret.
    rewrite (rep_mapper _ _ _ _ HR Hx). simpl.
    rewrite (rep_node _ _ HR i x Hx). simpl.
    rewrite (rep_cell _ _ HR x Hxin). simpl. done. }
  assert (∀ j, node_at (lister s) (<[i:=with_val v x]> es) j
               = node_at (lister s) es j) as Hna
    by (intros; by eapply node_at_insert).
  assert (∀ j, prev_at (lister s) (<[i:=with_val v x]> es) j
               = prev_at (lister s) es j) as Hpa
    by (intros; by eapply prev_at_insert).
  split; simpl.
  - erewrite fmap_insert_same; [apply (rep_nodes _ _ HR)|done|done].
  - erewrite fmap_insert_same; [apply (rep_cells _ _ HR)|done|done].
  - erewrite fmap_insert_same; [apply (rep_keys _ _ HR)|done|done].
  - rewrite length_insert, Hna, Hpa. apply (rep_root _ _ HR).
  - intros j y Hy. rewrite Hna, Hpa.
    apply list_lookup_insert_Some in Hy as [(-> & <- & Hlt)|(Hne & Hy)].
    + simpl. by apply (rep_node _ _ HR).
    + by apply (rep_node _ _ HR).
  - intros y Hy. apply list_elem_of_lookup in Hy as [j Hy].
    apply list_lookup_insert_Some in Hy as [(-> & <- & Hlt)|(Hne & Hy)].
    + simpl. by rewrite lookup_insert_eq.
    + rewrite lookup_insert_ne.
      * apply (rep_cell _ _ HR). by eapply list_elem_of_lookup_2.
      * intros Heq. apply Hne. by eapply rep_cell_inj.
  - intros k p. rewrite (rep_index _ _ HR). split.
    + intros (y & Hy & Hk & Hp). apply list_elem_of_lookup in Hy as [j Hy].
      destruct (decide (j = i)) as [->|Hne].
      * exists (with_val v x). simplify_eq. split; [|done].
        apply list_elem_of_lookup. exists i.
        apply list_lookup_insert_eq. by eapply lookup_lt_Some.
      * exists y. split; [|done]. apply list_elem_of_lookup. exists j.
        by rewrite list_lookup_insert_ne.
    + intros (y & Hy & Hk & Hp). apply list_elem_of_lookup in Hy as [j Hy].
      apply list_lookup_insert_Some in Hy as [(-> & <- & Hlt)|(Hne & Hy)].
      * exists x. done.
      * exists y. split; [|done]. by eapply list_elem_of_lookup_2.
  - rewrite length_insert. apply (rep_len _ _ HR).
  - apply (rep_elems_brk _ _ HR).
  - intros a [c Hc]. rewrite lookup_insert in Hc. case_decide.
    + subst a. by eapply rep_cell_lt.
    + apply (rep_vals_brk _ _ HR a). rewrite Hc. eauto.
Qed.

(** ** [Delete] of a present key *)

Lemma node_at_eq_iff r es i j :
  NoDup (r :: (e_node <$> es)) →
  node_at r es i = node_at r es j ↔ (i = j ∨ (length es ≤ i ∧ length es ≤ j)).
Proof.
  intros Hnd. split.
  - intros Heq.
    destruct (decide (i < length es)) as [Hi|Hi];
      destruct (decide (j < length es)) as [Hj|Hj].
    + left. by eapply node_at_inj.
    + rewrite (node_at_ge _ _ j) in Heq by lia.
      by apply node_at_ne_root in Heq.
    + rewrite (node_at_ge _ _ i) in Heq by lia.
      symmetry in Heq. by apply node_at_ne_root in Heq.
    + right. lia.
  - intros [->|[Hi Hj]]; [done|]. by rewrite !node_at_ge.
Qed.

Lemma prev_at_node_at r es i :
  prev_at r es i = node_at r es (if i is S j then j else length es).
Proof. destruct i; simpl; [|done]. by rewrite node_at_ge. Qed.

Lemma node_at_delete r es i j :
  node_at r (delete i es) j = node_at r es (if decide (j < i) then j else S j).
Proof.
  unfold node_at. case_decide.
  - by rewrite list_lookup_delete_lt.
  - by rewrite list_lookup_delete_ge by lia.
Qed.

Lemma prev_at_delete r es i j :
  prev_at r (delete i es) j = prev_at r es (if decide (j ≤ i) then j else S j).
Proof.
  destruct j as [|j].
  - case_decide; [done|lia].
  - simpl prev_at at 1. rewrite node_at_delete.
    repeat case_decide; try lia; done.
Qed.

Lemma unlink_at r es i a c :
  NoDup (r :: (e_node <$> es)) → i < length es →
  unlink (prev_at r es i) (node_at r es (S i)) (node_at r es a) c =
  (if decide (a = S i ∨ (length es ≤ a ∧ length es ≤ S i))
   then with_prev (Some (prev_at r es i)) else id)
    ((if decide (S a = i ∨ (i = 0 ∧ length es ≤ a))
      then with_next (Some (node_at r es (S i))) else id) c).
Proof.
  intros Hnd Hi. unfold unlink. rewrite !prev_at_node_at.
  destruct i as [|i'];
    repeat match goal with
    | |- context [decide (node_at r es ?x = node_at r es ?y)] =>
        let H := fresh in
        destruct (decide (node_at r es x = node_at r es y)) as [H|H];
        rewrite (node_at_eq_iff r es x y Hnd) in H
    end;
    repeat case_decide; try lia; done.
Qed.

Lemma unlink_root r es i c :
  NoDup (r :: (e_node <$> es)) → i < length es →
  unlink (prev_at r es i) (node_at r es (S i)) r c =
  (if decide (length es ≤ S i) then with_prev (Some (prev_at r es i)) else id)
    ((if decide (i = 0) then with_next (Some (node_at r es (S i))) else id) c).
Proof.
  intros Hnd Hi. pose proof (unlink_at r es i (length es) c Hnd Hi) as H.
  rewrite (node_at_ge r es (length es)) in H by lia. rewrite H.
  repeat case_decide; try lia; done.
Qed.

Lemma unlink_node r es i a y c :
  NoDup (r :: (e_node <$> es)) → i < length es → es !! a = Some y →
  unlink (prev_at r es i) (node_at r es (S i)) (e_node y) c =
  (if decide (a = S i) then with_prev (Some (prev_at r es i)) else id)
    ((if decide (S a = i) then with_next (Some (node_at r es (S i))) else id) c).
Proof.
  intros Hnd Hi Hy. pose proof (lookup_lt_Some _ _ _ Hy).
  rewrite <- (node_at_lookup r _ _ _ Hy). rewrite unlink_at by done.
  repeat case_decide; try lia; done.
Qed.

Lemma Delete_present s es i x :
  Rep s es → es !! i = Some x →
  ∃ s' c,
    Delete (e_key x) s = Ok tt s' c ∧ c ≤ 17 ∧
    Rep s' (delete i es) ∧
    vals s' = vals s ∧ brk s' = brk s ∧ lister s' = lister s ∧
    mapper s' = delete (e_key x) (mapper s) ∧
    elems s' !! e_node x = Some (mkListElement None None None (Some (e_cell x))).
Proof.
  intros HR Hx.
  pose proof (rep_nodes _ _ HR) as Hnd.
  pose proof (rep_node _ _ HR i x Hx) as Hcx.
  pose proof (lookup_lt_Some _ _ _ Hx) as Hi.
  pose proof (node_at_lookup (lister s) _ _ _ Hx) as Hxi.
  set (p := prev_at (lister s) es i) in *.
  set (n := node_at (lister s) es (S i)) in *.
  destruct (list_remove_spec s (lister s) (e_node x) _ p n Hcx)
    as (h & c & Hrun & Hc & Hh); [done|done|..].
  { rewrite <- Hxi. intros Heq. symmetry in Heq. by eapply prev_at_ne. }
  { rewrite <- Hxi. intros Heq. symmetry in Heq. by eapply next_at_ne. }
  { by apply rep_prev_at. }
  { by apply rep_node_at. }
  unfold Delete, bind, map_lookup, read_lister, list_Remove, bind, read_elem, ret, map_delete.
  rewrite (rep_mapper _ _ _ _ HR Hx). simpl.
  rewrite Hcx. simpl. rewrite decide_True by done.
  rewrite Hrun. simpl. rewrite Hh, decide_True by done. simpl.
  eexists _, _. split; [reflexivity|]. split; [lia|].
  split; [|simpl; rewrite Hh, decide_True by done; done].
  assert (∀ a, a ≠ e_node x → h !! a = unlink p n a <$> elems s !! a) as Hh'.
  { intros a Ha. rewrite Hh. by rewrite decide_False. }
  assert (∀ j y, es !! j = Some y → j ≠ i → e_node y ≠ e_node x) as Hnx.
  { intros j y Hy Hji Heq. apply Hji.
    rewrite <- (node_at_lookup (lister s) _ _ _ Hy), <- Hxi in Heq.
    eapply node_at_inj; [done| |done|done]. by eapply lookup_lt_Some. }
  assert (lister s ≠ e_node x) as Hrx.
  { rewrite <- Hxi. intros Heq. symmetry in Heq. by eapply node_at_ne_root. }
  split; simpl.
  - rewrite list_fmap_delete. apply NoDup_cons in Hnd as [Hr Hnd'].
    apply NoDup_cons. split.
    + intros Hin. apply Hr. by eapply list_elem_of_delete_inv.
    + eapply sublist_NoDup; [exact Hnd'|]. apply sublist_delete.
  - rewrite list_fmap_delete.
    eapply sublist_NoDup; [exact (rep_cells _ _ HR)|]. apply sublist_delete.
  - rewrite list_fmap_delete.
    eapply sublist_NoDup; [exact (rep_keys _ _ HR)|]. apply sublist_delete.
  - rewrite Hh' by done. rewrite (rep_root _ _ HR). simpl.
    unfold p, n. rewrite unlink_root by done.
    rewrite length_delete by eauto.
    rewrite node_at_delete, prev_at_delete.
    destruct (length es) as [|m] eqn:Hm; [lia|].
    repeat case_decide; try lia; simpl; unfold with_prev, with_next; simpl;
      repeat f_equal; lia.
  - intros j y Hy. rewrite list_lookup_delete in Hy.
    rewrite node_at_delete, prev_at_delete.
    case_decide as Hji.
    + rewrite Hh' by (eapply Hnx; [done|lia]).
      rewrite (rep_node _ _ HR j y Hy). simpl.
      unfold p, n. rewrite (unlink_node _ _ _ j y) by done.
      repeat case_decide; try lia; simpl; unfold with_prev, with_next; simpl;
        repeat f_equal; lia.
    + rewrite Hh' by (eapply Hnx; [done|lia]).
      rewrite (rep_node _ _ HR (S j) y Hy). simpl.
      unfold p, n. rewrite (unlink_node _ _ _ (S j) y) by done.
      repeat case_decide; try lia; simpl; unfold with_prev, with_next; simpl;
        repeat f_equal; lia.
  - intros y Hy. apply (rep_cell _ _ HR). by eapply list_elem_of_delete_inv.
  - intros k q. rewrite lookup_delete. case_decide as Hk.
    + subst k. split; [done|]. intros (y & Hy & Hyk & Hyq). exfalso.
      apply list_elem_of_lookup in Hy as [j Hy]. rewrite list_lookup_delete in Hy.
      case_decide.
      * assert (j = i) by by eapply rep_key_inj. lia.
      * assert (S j = i) by by eapply rep_key_inj. lia.
    + rewrite (rep_index _ _ HR). split.
      * intros (y & Hy & Hyk & Hyq). exists y. split; [|done].
        apply list_elem_of_lookup in Hy as [j Hy].
        assert (j ≠ i) by (intros ->; simplify_eq; done).
        apply list_elem_of_lookup.
        destruct (decide (j < i)).
        -- exists j. by rewrite list_lookup_delete_lt.
        -- exists (j - 1). rewrite list_lookup_delete_ge by lia.
           by replace (S (j - 1)) with j by lia.
      * intros (y & Hy & Hyk & Hyq). exists y. split; [|done].
        by eapply list_elem_of_delete_inv.
  - rewrite length_delete by eauto. rewrite (rep_len _ _ HR). lia.
  - intros a [c' Hc']. rewrite Hh in Hc'. case_decide.
    + subst a. eapply rep_node_lt; [done|]. by eapply list_elem_of_lookup_2.
    + destruct (elems s !! a) eqn:Ha; [|done].
      apply (rep_elems_brk _ _ HR a). rewrite Ha. eauto.
  - apply (rep_vals_brk _ _ HR).
Qed.

(** ** Reads: [Get], [Len] *)

Lemma Get_present s es i x :
  Rep s es → es !! i = Some x →
  Get (e_key x) s = Ok (e_val x, true) s 3.
Proof.
  intros HR Hx.
  unfold Get, bind, map_lookup, read_elem, deref, read_val, ret.
  rewrite (rep_mapper _ _ _ _ HR Hx). simpl.
  rewrite (rep_node _ _ HR i x Hx). simpl.
  rewrite (rep_cell _ _ HR x) by by eapply list_elem_of_lookup_2.
  done.
Qed.

Lemma Get_absent s k :
  mapper s !! k = None → Get k s = Ok (None, false) s 1.
Proof. intros Hk. unfold Get, bind, map_lookup, ret. by rewrite Hk. Qed.

Lemma Len_run s : Len s = Ok (len s) s 2.
Proof. reflexivity. Qed.

Lemma Delete_absent s k :
  mapper s !! k = None → Delete k s = Ok tt s 1.
Proof. intros Hk. unfold Delete, bind, map_lookup, ret. by rewrite Hk. Qed.

(** ** Handles *)

Lemma Rep_salloc s es (c : ElemVal) : Rep s es → Rep (salloc s c) es.
Proof.
  intros HR. split; simpl; try apply HR.
  - intros x Hx. pose proof (rep_cell_lt _ _ _ HR Hx).
    rewrite lookup_insert_ne by lia. by apply (rep_cell _ _ HR).
  - intros a Ha. pose proof (rep_elems_brk _ _ HR a Ha). lia.
  - intros a [c' Hc']. rewrite lookup_insert in Hc'. case_decide; [lia|].
    assert (a < brk s) by (apply (rep_vals_brk _ _ HR a); rewrite Hc'; eauto).
    lia.
Qed.

Lemma holds_salloc s es (e : Element) j kv (c : ElemVal) :
  Rep s es → holds s es e j kv → holds (salloc s c) es e j kv.
Proof.
  intros HR (x & Hx & He & Hv & Hc). exists x. repeat split; try done.
  simpl. rewrite lookup_insert_ne; [done|].
  assert (pElemVal e < brk s); [|lia].
  apply (rep_vals_brk _ _ HR (pElemVal e)). rewrite Hv. eauto.
Qed.

Lemma snapshot_run s es j x :
  Rep s es → es !! j = Some x →
  snapshot (e_node x) s =
    Ok (mkElement (e_node x) (brk s))
       (salloc s (mkElemVal (e_key x) (e_val x))) 5 ∧
  holds (salloc s (mkElemVal (e_key x) (e_val x))) es
        (mkElement (e_node x) (brk s)) j (e_key x, e_val x).
Proof.
  intros HR Hx.
  assert (x ∈ es) as Hxin by by eapply list_elem_of_lookup_2.
  split.
  - unfold snapshot, bind, read_elem, deref, read_val, new_val, ret.
    rewrite (rep_node _ _ HR j x Hx). simpl.
    rewrite (rep_cell _ _ HR x Hxin). simpl.
    rewrite (rep_node _ _ HR j x Hx). simpl.
    rewrite (rep_cell _ _ HR x Hxin). simpl. done.
  - exists x. repeat split; try done.
    + simpl. by rewrite lookup_insert_eq.
    + simpl. intros Hin. apply list_elem_of_fmap in Hin as (y & Hy1 & Hy2).
      pose proof (rep_cell_lt _ _ _ HR Hy2). lia.
Qed.

Lemma ext_refl s : ext s s.
Proof. by repeat split. Qed.

Lemma ext_trans s1 s2 s3 : ext s1 s2 → ext s2 s3 → ext s1 s3.
Proof.
  intros (Hm & Hl & Hn & He & Hb & Hv) (Hm' & Hl' & Hn' & He' & Hb' & Hv').
  repeat split; try congruence; [lia|].
  intros a Ha. rewrite Hv' by lia. by apply Hv.
Qed.

Lemma ext_salloc s (c : ElemVal) : ext s (salloc s c).
Proof.
  repeat split; simpl; [lia|]. intros a Ha. by rewrite lookup_insert_ne by lia.
Qed.

Lemma holds_ext s s' es (e : Element) j kv :
  Rep s es → holds s es e j kv → ext s s' → holds s' es e j kv.
Proof.
  intros HR (x & Hx & He & Hv & Hc) (_ & _ & _ & _ & _ & Hvals).
  exists x. repeat split; try done. rewrite Hvals; [done|].
  apply (rep_vals_brk _ _ HR (pElemVal e)). rewrite Hv. eauto.
Qed.

(** ** [First] and [Next] *)

Lemma First_empty s : Rep s [] → First s = Ok None s 2.
Proof.
  intros HR. unfold First, bind, read_lister, list_Front, bind, read_len.
  rewrite (rep_len _ _ HR). simpl. done.
Qed.

Lemma First_nonempty s es x :
  Rep s es → es !! 0 = Some x →
  First s = Ok (Some (mkElement (e_node x) (brk s)))
               (salloc s (mkElemVal (e_key x) (e_val x))) 8.
Proof.
  intros HR Hx. destruct (snapshot_run _ _ _ _ HR Hx) as [Hsnap _].
  unfold First, bind, read_lister, list_Front, bind, read_len, read_elem, ret.
  rewrite (rep_len _ _ HR).
  destruct es as [|x0 es']; [done|]. simpl in Hx. simplify_eq.
  assert ((Z.of_nat (length (x :: es')) =? 0)%Z = false) as ->
    by (apply Z.eqb_neq; simpl; lia).
  rewrite (rep_root _ _ HR). unfold node_at. simpl. rewrite Hsnap. done.
Qed.

Lemma Next_last s es j x (e : Element) :
  Rep s es → es !! j = Some x → elem e = e_node x → S j = length es →
  Next e s = Ok None s 1.
Proof.
  intros HR Hx He Hj.
  unfold Next, bind, list_Element_Next, bind, read_elem, ret.
  rewrite He, (rep_node _ _ HR j x Hx). simpl.
  rewrite node_at_ge by lia. rewrite decide_True by done. done.
Qed.

Lemma Next_more s es j x x' (e : Element) :
  Rep s es → es !! j = Some x → elem e = e_node x → es !! S j = Some x' →
  Next e s = Ok (Some (mkElement (e_node x') (brk s)))
                (salloc s (mkElemVal (e_key x') (e_val x'))) 6.
Proof.
  intros HR Hx He Hx'. destruct (snapshot_run _ _ _ _ HR Hx') as [Hsnap _].
  pose proof (lookup_lt_Some _ _ _ Hx') as Hlt.
  unfold Next, bind, list_Element_Next, bind, read_elem, ret.
  rewrite He, (rep_node _ _ HR j x Hx). simpl.
  rewrite decide_False; last first.
  { intros [= Heq]. eapply node_at_ne_root; [apply (rep_nodes _ _ HR)| |done]. done. }
  rewrite (node_at_lookup _ _ _ _ Hx'). rewrite Hsnap. done.
Qed.

(** ** Traversals *)

Lemma Element_Value_run s (e : Element) (c : ElemVal) :
  vals s !! pElemVal e = Some c → Element_Value e s = Ok (Value c) s 1.
Proof. intros H. unfold Element_Value, bind, read_val, ret. by rewrite H. Qed.

Lemma Element_Key_run s (e : Element) (c : ElemVal) :
  vals s !! pElemVal e = Some c → Element_Key e s = Ok (Key c) s 1.
Proof. intros H. unfold Element_Key, bind, read_val, ret. by rewrite H. Qed.

Lemma view_drop es j x :
  es !! j = Some x → view (drop j es) = (e_key x, e_val x) :: view (drop (S j) es).
Proof. intros Hx. by rewrite (drop_S _ _ _ Hx). Qed.

Lemma visit_run fuel : ∀ s es (e : Element) j kv,
  Rep s es → holds s es e j kv → length es - j ≤ fuel →
  ∃ s' c, visit fuel (Some e) s = Ok (kv :: view (drop (S j) es)) s' c ∧
          Rep s' es ∧ ext s s'.
Proof.
  induction fuel as [|fuel IH]; intros s es e j [k v] HR Hh Hfuel.
  { destruct Hh as (x & Hx & _). apply lookup_lt_Some in Hx. lia. }
  pose proof Hh as (x & Hx & He & Hv & Hc). simpl in Hv.
  pose proof (lookup_lt_Some _ _ _ Hx) as Hj.
  simpl. unfold bind at 1. unfold Element_Key, bind, read_val, ret.
  rewrite Hv. simpl. unfold Element_Value, bind, read_val, ret at 1.
  rewrite Hv. simpl.
  destruct (decide (S j = length es)) as [Hlast|Hmore].
  - rewrite (Next_last _ _ _ _ _ HR Hx He Hlast).
    destruct fuel; simpl; rewrite drop_ge by lia;
      (eexists _, _; split; [reflexivity|]; split; [done|apply ext_refl]).
  - destruct (lookup_lt_is_Some_2 es (S j)) as [x' Hx']; [lia|].
    rewrite (Next_more _ _ _ _ _ _ HR Hx He Hx').
    destruct (snapshot_run _ _ _ _ HR Hx') as [_ Hh'].
    destruct (IH _ es _ (S j) _ (Rep_salloc _ _ _ HR) Hh') as (s' & c & Hrun & HR' & Hext);
      [lia|].
    rewrite Hrun. rewrite (view_drop _ _ _ Hx').
    eexists _, _. split; [reflexivity|]. split; [done|].
    eapply ext_trans; [apply ext_salloc|done].
Qed.

Lemma iterate_run s es fuel :
  Rep s es → length es ≤ fuel →
  ∃ s' c, iterate fuel s = Ok (view es) s' c ∧ Rep s' es ∧ ext s s'.
Proof.
  intros HR Hfuel. unfold iterate, bind.
  destruct es as [|x es'] eqn:Hes.
  - rewrite (First_empty _ HR). destruct fuel; simpl;
      (eexists _, _; split; [reflexivity|]; split; [done|apply ext_refl]).
  - rewrite <- Hes in *.
    assert (es !! 0 = Some x) as Hx by by rewrite Hes.
    rewrite (First_nonempty _ _ _ HR Hx).
    destruct (snapshot_run _ _ _ _ HR Hx) as [_ Hh].
    destruct (visit_run fuel _ es _ 0 _ (Rep_salloc _ _ _ HR) Hh)
      as (s' & c & Hrun & HR' & Hext); [lia|].
    rewrite Hrun. rewrite <- (view_drop _ _ _ Hx). rewrite drop_0.
    eexists _, _. split; [reflexivity|]. split; [done|].
    eapply ext_trans; [apply ext_salloc|done].
Qed.

Lemma advance_run j : ∀ s es (e : Element) i x,
  Rep s es → holds s es e i (e_key x, e_val x) → es !! i = Some x →
  i + j < length es →
  ∃ (e' : Element) x' s' c,
    advance j (Some e) s = Ok (Some e') s' c ∧ Rep s' es ∧ ext s s' ∧
    es !! (i + j) = Some x' ∧ holds s' es e' (i + j) (e_key x', e_val x').
Proof.
  induction j as [|j IH]; intros s es e i x HR Hh Hx Hij.
  - exists e, x, s, 0. rewrite Nat.add_0_r.
    split; [done|]. split; [done|]. split; [apply ext_refl|done].
  - pose proof Hh as (x0 & Hx0 & He & _). simplify_eq.
    destruct (lookup_lt_is_Some_2 es (S i)) as [x' Hx']; [lia|].
    simpl. unfold bind.
    rewrite (Next_more _ _ _ _ _ _ HR Hx He Hx').
    destruct (snapshot_run _ _ _ _ HR Hx') as [_ Hh'].
    destruct (IH _ es _ (S i) x' (Rep_salloc _ _ _ HR) Hh' Hx')
      as (e' & x'' & s' & c & Hrun & HR' & Hext & Hx'' & Hh''); [lia|].
    rewrite Hrun. replace (i + S j) with (S i + j) by lia.
    exists e', x''. eexists _, _. split; [reflexivity|].
    split; [done|]. split; [|done].
    eapply ext_trans; [apply ext_salloc|done].
Qed.

Lemma cursor_at_run s es j x :
  Rep s es → es !! j = Some x →
  ∃ (e : Element) s' c,
    cursor_at j s = Ok (Some e) s' c ∧ Rep s' es ∧ ext s s' ∧
    holds s' es e j (e_key x, e_val x).
Proof.
  intros HR Hx. pose proof (lookup_lt_Some _ _ _ Hx) as Hj.
  destruct (lookup_lt_is_Some_2 es 0) as [x0 Hx0]; [lia|].
  unfold cursor_at, bind. rewrite (First_nonempty _ _ _ HR Hx0).
  destruct (snapshot_run _ _ _ _ HR Hx0) as [_ Hh].
  destruct (advance_run j _ es _ 0 x0 (Rep_salloc _ _ _ HR) Hh Hx0)
    as (e' & x' & s' & c & Hrun & HR' & Hext & Hx' & Hh'); [lia|].
  simpl in Hx', Hh'. simplify_eq. rewrite Hrun.
  exists e'. eexists _, _. split; [reflexivity|]. split; [done|].
  split; [|done]. eapply ext_trans; [apply ext_salloc|done].
Qed.

(** ** The association-list view *)

Lemma view_keys es : (view es).*1 = e_key <$> es.
Proof. unfold view. rewrite <- list_fmap_compose. done. Qed.

Lemma view_app es es' : view (es ++ es') = view es ++ view es'.
Proof. unfold view. by rewrite fmap_app. Qed.

Lemma view_length es : length (view es) = length es.
Proof. unfold view. by rewrite length_fmap. Qed.

Lemma spec_set_absent k v (l : list (string * any)) :
  k ∉ l.*1 → spec_set k v l = l ++ [(k, v)].
Proof.
  induction l as [|[k' v'] l IH]; intros Hk; simpl; [done|].
  rewrite fmap_cons in Hk. apply not_elem_of_cons in Hk as [Hne Hk].
  simpl in Hne. rewrite decide_False by done. by rewrite IH.
Qed.

Lemma spec_delete_absent k (l : list (string * any)) :
  k ∉ l.*1 → spec_delete k l = l.
Proof.
  induction l as [|[k' v'] l IH]; intros Hk; simpl; [done|].
  rewrite fmap_cons in Hk. apply not_elem_of_cons in Hk as [Hne Hk].
  simpl in Hne. rewrite decide_False by done. by rewrite IH.
Qed.

Lemma spec_set_middle k v v' (l1 l2 : list (string * any)) :
  k ∉ l1.*1 → spec_set k v (l1 ++ (k, v') :: l2) = l1 ++ (k, v) :: l2.
Proof.
  induction l1 as [|[k0 v0] l1 IH]; intros Hk; simpl.
  - by rewrite decide_True.
  - rewrite fmap_cons in Hk. apply not_elem_of_cons in Hk as [Hne Hk].
    simpl in Hne. rewrite decide_False by done. by rewrite IH.
Qed.

Lemma spec_delete_middle k v' (l1 l2 : list (string * any)) :
  k ∉ l1.*1 → spec_delete k (l1 ++ (k, v') :: l2) = l1 ++ l2.
Proof.
  induction l1 as [|[k0 v0] l1 IH]; intros Hk; simpl.
  - by rewrite decide_True.
  - rewrite fmap_cons in Hk. apply not_elem_of_cons in Hk as [Hne Hk].
    simpl in Hne. rewrite decide_False by done. by rewrite IH.
Qed.

(** An entry splits the list; with distinct keys its key is not before it. *)
Lemma view_split es i x :
  es !! i = Some x →
  view es = view (take i es) ++ (e_key x, e_val x) :: view (drop (S i) es).
Proof.
  intros Hx. rewrite <- (take_drop_middle _ _ _ Hx) at 1.
  by rewrite view_app.
Qed.

Lemma key_not_before es i x :
  NoDup (e_key <$> es) → es !! i = Some x → e_key x ∉ (view (take i es)).*1.
Proof.
  intros Hnd Hx Hin. rewrite view_keys in Hin.
  apply list_elem_of_fmap in Hin as (y & Hy1 & Hy2).
  apply list_elem_of_lookup in Hy2 as [j Hy2].
  apply lookup_take_Some in Hy2 as [Hy2 Hji].
  assert (i = j); [|lia].
  eapply NoDup_lookup; [exact Hnd| |].
  - rewrite list_lookup_fmap, Hx. reflexivity.
  - rewrite list_lookup_fmap, Hy2. simpl. by rewrite Hy1.
Qed.

Lemma spec_set_present es i x v :
  NoDup (e_key <$> es) → es !! i = Some x →
  spec_set (e_key x) v (view es) = view (<[i := with_val v x]> es).
Proof.
  intros Hnd Hx. rewrite (view_split _ _ _ Hx).
  rewrite spec_set_middle by by apply key_not_before.
  pose proof (lookup_lt_Some _ _ _ Hx).
  rewrite insert_take_drop by done. rewrite view_app. done.
Qed.

Lemma spec_delete_present es i x :
  NoDup (e_key <$> es) → es !! i = Some x →
  spec_delete (e_key x) (view es) = view (delete i es).
Proof.
  intros Hnd Hx. rewrite (view_split _ _ _ Hx).
  rewrite spec_delete_middle by by apply key_not_before.
  rewrite delete_take_drop, view_app. done.
Qed.

Lemma rep_lookup_key s es k :
  Rep s es →
  (mapper s !! k = None ∧ k ∉ e_key <$> es) ∨
  (∃ i x, es !! i = Some x ∧ e_key x = k).
Proof.
  intros HR. destruct (mapper s !! k) as [p|] eqn:Hk.
  - right. apply (rep_index _ _ HR) in Hk as (x & Hx & Hxk & _).
    apply list_elem_of_lookup in Hx as [i Hx]. eauto.
  - left. split; [done|]. by eapply rep_key_absent.
Qed.

Lemma rep_dom s es : Rep s es → dom (mapper s) = list_to_set (e_key <$> es).
Proof.
  intros HR. apply set_eq. intros k.
  rewrite elem_of_dom, elem_of_list_to_set. split.
  - intros [p Hp]. apply (rep_index _ _ HR) in Hp as (x & Hx & Hxk & _).
    apply list_elem_of_fmap. eauto.
  - intros Hin. apply list_elem_of_fmap in Hin as (x & -> & Hx).
    exists (e_node x). apply (rep_index _ _ HR). eauto.
Qed.

(** ** Every call refines its specification *)

Lemma run_op_refines s es o :
  Rep s es →
  ∃ s' es' c,
    run_op o s = Ok tt s' c ∧ c ≤ 24 ∧ Rep s' es' ∧
    view es' = spec_op o (view es) ∧
    dom (mapper s') = keys_op (dom (mapper s)) o.
Proof.
  intros HR. destruct o as [k v|k]; simpl.
  - destruct (rep_lookup_key _ _ k HR) as [[Hk Hnin]|(i & x & Hx & <-)].
    + destruct (Set_absent _ _ k v HR Hk)
        as (s' & c & Hrun & Hc & HR' & _ & _ & _ & Hm).
      exists s', (es ++ [mkEntry (S (brk s)) (brk s) k v]), c.
      split; [done|]. split; [done|]. split; [done|]. split.
      * rewrite view_app. rewrite spec_set_absent by by rewrite view_keys. done.
      * rewrite Hm. by rewrite dom_insert_L.
    + destruct (Set_present _ _ _ _ v HR Hx) as [Hrun HR'].
      eexists _, _, _. split; [exact Hrun|]. split; [lia|]. split; [exact HR'|].
      split.
      * symmetry. apply spec_set_present; [apply (rep_keys _ _ HR)|done].
      * simpl. apply set_eq. intros k'. rewrite elem_of_union, elem_of_singleton.
        split; [by right|]. intros [->|?]; [|done].
        apply elem_of_dom. rewrite (rep_mapper _ _ _ _ HR Hx). eauto.
  - destruct (rep_lookup_key _ _ k HR) as [[Hk Hnin]|(i & x & Hx & <-)].
    + exists s, es, 1. rewrite (Delete_absent _ _ Hk).
      split; [done|]. split; [lia|]. split; [done|]. split.
      * rewrite spec_delete_absent by by rewrite view_keys. done.
      * apply set_eq. intros k'. rewrite elem_of_difference, elem_of_singleton.
        split; [|by intros [? _]]. intros Hin. split; [done|]. intros ->.
        apply elem_of_dom in Hin as [? ?]. congruence.
    + destruct (Delete_present _ _ _ _ HR Hx)
        as (s' & c & Hrun & Hc & HR' & _ & _ & _ & Hm & _).
      exists s', (delete i es), c.
      split; [done|]. split; [lia|]. split; [done|]. split.
      * symmetry. apply spec_delete_present; [apply (rep_keys _ _ HR)|done].
      * rewrite Hm. by rewrite dom_delete_L.
Qed.

Lemma run_ops_refines ops : ∀ s es,
  Rep s es →
  ∃ s' es' c,
    run_ops ops s = Ok tt s' c ∧ Rep s' es' ∧
    view es' = fold_left (λ acc o, spec_op o acc) ops (view es) ∧
    dom (mapper s') = fold_left keys_op ops (dom (mapper s)).
Proof.
  induction ops as [|o ops IH]; intros s es HR; simpl.
  - exists s, es, 0. done.
  - destruct (run_op_refines _ _ o HR) as (s1 & es1 & c1 & Hrun1 & _ & HR1 & Hv1 & Hd1).
    destruct (IH _ _ HR1) as (s2 & es2 & c2 & Hrun2 & HR2 & Hv2 & Hd2).
    exists s2, es2, (c1 + c2). unfold bind. rewrite Hrun1, Hrun2.
    rewrite <- Hv1, <- Hd1. done.
Qed.

Lemma history_rep ops :
  ∃ s c es,
    history ops = Ok tt s c ∧ Rep s es ∧
    view es = spec_run ops ∧ dom (mapper s) = keys_after ops.
Proof.
  destruct New_run as (s0 & Hnew & HR0).
  destruct (run_ops_refines ops _ _ HR0) as (s & es & c & Hrun & HR & Hv & Hd).
  exists s, (5 + c), es. unfold history, bind. rewrite Hnew, Hrun.
  split; [done|]. split; [done|]. split; [done|].
  rewrite Hd. unfold keys_after. f_equal.
  rewrite (rep_dom _ _ HR0). done.
Qed.

(** Whatever a history returns, it returns a well-formed map. *)
Lemma history_inv ops s c :
  history ops = Ok tt s c →
  ∃ es, Rep s es ∧ view es = spec_run ops ∧ dom (mapper s) = keys_after ops.
Proof.
  intros H. destruct (history_rep ops) as (s' & c' & es & H' & HR & Hv & Hd).
  rewrite H in H'. simplify_eq. eauto.
Qed.

(** ** Facts about the specification *)

Lemma spec_set_length k v (l0 : list (string * any)) :
  length (spec_set k v l0) ≤ S (length l0).
Proof.
  induction l0 as [|[k' v'] l0 IH]; simpl; [lia|]. case_decide; simpl; lia.
Qed.

Lemma spec_delete_length k (l0 : list (string * any)) :
  length (spec_delete k l0) ≤ length l0.
Proof.
  induction l0 as [|[k' v'] l0 IH]; simpl; [lia|]. case_decide; simpl; lia.
Qed.

Lemma spec_fold_length ops : ∀ l0 : list (string * any),
  length (fold_left (λ acc o, spec_op o acc) ops l0) ≤ length l0 + length ops.
Proof.
  induction ops as [|o ops IH]; intros l0; simpl; [lia|].
  etrans; [apply IH|]. destruct o as [k v|k]; simpl.
  - pose proof (spec_set_length k v l0). lia.
  - pose proof (spec_delete_length k l0). lia.
Qed.

Lemma spec_run_length ops : length (spec_run ops) ≤ length ops.
Proof. apply (spec_fold_length ops []). Qed.

Lemma spec_set_keys_present k v (l0 : list (string * any)) :
  k ∈ l0.*1 → (spec_set k v l0).*1 = l0.*1.
Proof.
  induction l0 as [|[k' v'] l0 IH]; intros Hin; simpl.
  - by apply elem_of_nil in Hin.
  - case_decide; simpl; [done|]. f_equal. apply IH.
    rewrite fmap_cons in Hin. apply elem_of_cons in Hin as [Heq|Hin]; [|done].
    simpl in Heq. congruence.
Qed.

(** Inserting distinct fresh keys appends them in order. *)
Lemma spec_fold_fresh (kvs : list (string * any)) : ∀ l0 : list (string * any),
  NoDup (l0.*1 ++ kvs.*1) →
  fold_left (λ acc o, spec_op o acc) (uncurry OpSet <$> kvs) l0 = l0 ++ kvs.
Proof.
  induction kvs as [|[k v] kvs IH]; intros l0 Hnd; simpl.
  - by rewrite app_nil_r.
  - rewrite fmap_cons in Hnd. simpl in Hnd.
    rewrite spec_set_absent; last first.
    { apply NoDup_app in Hnd as (_ & Hdisj & _). intros Hin.
      apply (Hdisj _ Hin). by left. }
    rewrite IH.
    + by rewrite <- app_assoc.
    + rewrite fmap_app. simpl. rewrite <- app_assoc. done.
Qed.

(** Updating present keys leaves the key sequence alone. *)
Lemma spec_fold_updates (upd : list (string * any)) : ∀ l0 : list (string * any),
  Forall (λ kv, kv.1 ∈ l0.*1) upd →
  (fold_left (λ acc o, spec_op o acc) (uncurry OpSet <$> upd) l0).*1 = l0.*1.
Proof.
  induction upd as [|[k v] upd IH]; intros l0 Hall; simpl; [done|].
  apply Forall_cons in Hall as [Hk Hall]. simpl in Hk.
  rewrite IH.
  - by apply spec_set_keys_present.
  - rewrite spec_set_keys_present by done. done.
Qed.

(** ** Handles survive writes *)

Lemma Rep_write_foreign s es (a : ptr) (y : ElemVal) :
  Rep s es → a ∉ e_cell <$> es → is_Some (vals s !! a) →
  Rep (set_vals (<[a := y]> (vals s)) s) es.
Proof.
  intros HR Ha Hsome. split; simpl; try apply HR.
  - intros x Hx. rewrite lookup_insert_ne; [by apply (rep_cell _ _ HR)|].
    intros ->. apply Ha. apply list_elem_of_fmap. eauto.
  - intros a' [c Hc]. rewrite lookup_insert in Hc. case_decide.
    + subst a'. by apply (rep_vals_brk _ _ HR).
    + apply (rep_vals_brk _ _ HR a'). rewrite Hc. eauto.
Qed.

Lemma Set_keeps_handle s es (e : Element) j kv k v :
  Rep s es → holds s es e j kv →
  ∃ s' es' c i x',
    Set_ k v s = Ok tt s' c ∧ Rep s' es' ∧
    es' !! i = Some x' ∧ e_key x' = k ∧ e_val x' = v ∧
    vals s' !! pElemVal e = vals s !! pElemVal e ∧
    pElemVal e ∉ e_cell <$> es'.
Proof.
  intros HR (x & Hx & He & Hv & Hc).
  assert (pElemVal e < brk s) as Hlt.
  { apply (rep_vals_brk _ _ HR (pElemVal e)). rewrite Hv. eauto. }
  destruct (rep_lookup_key _ _ k HR) as [[Hk Hnin]|(i & y & Hy & <-)].
  - destruct (Set_absent _ _ k v HR Hk)
      as (s' & c & Hrun & _ & HR' & Hvals & _ & _ & _).
    exists s', (es ++ [mkEntry (S (brk s)) (brk s) k v]), c, (length es),
      (mkEntry (S (brk s)) (brk s) k v).
    split; [done|]. split; [done|].
    split; [by rewrite lookup_app_r, Nat.sub_diag by lia|].
    split; [done|]. split; [done|]. split.
    + rewrite Hvals. by rewrite lookup_insert_ne by lia.
    + rewrite fmap_app. simpl. intros Hin.
      apply elem_of_app in Hin as [Hin|Hin]; [done|].
      apply list_elem_of_singleton in Hin. lia.
  - destruct (Set_present _ _ _ _ v HR Hy) as [Hrun HR'].
    pose proof (lookup_lt_Some _ _ _ Hy).
    eexists _, _, _, i, (with_val v y).
    split; [exact Hrun|]. split; [exact HR'|].
    split; [by apply list_lookup_insert_eq|].
    split; [done|]. split; [done|]. split.
    + simpl. rewrite lookup_insert_ne; [done|]. intros Heq. apply Hc.
      rewrite <- Heq. apply list_elem_of_fmap. exists y.
      split; [done|]. by eapply list_elem_of_lookup_2.
    + by erewrite fmap_insert_same.
Qed.

(** ** A handle stays on its entry until its key is deleted *)

Lemma run_op_keeps s es o i x :
  Rep s es → es !! i = Some x → e_key x ∉ deleted_keys [o] →
  ∃ s' es' c i' x',
    run_op o s = Ok tt s' c ∧ Rep s' es' ∧
    view es' = spec_op o (view es) ∧
    es' !! i' = Some x' ∧ e_node x' = e_node x ∧ e_key x' = e_key x.
Proof.
  intros HR Hx Hdel. pose proof (lookup_lt_Some _ _ _ Hx) as Hi.
  destruct o as [k v|k]; simpl.
  - destruct (rep_lookup_key _ _ k HR) as [[Hk Hnin]|(i0 & y & Hy & <-)].
    + destruct (Set_absent _ _ k v HR Hk) as (s' & c & Hrun & _ & HR' & _).
      exists s', (es ++ [mkEntry (S (brk s)) (brk s) k v]), c, i, x.
      split; [done|]. split; [done|]. split.
      { rewrite view_app, spec_set_absent by by rewrite view_keys. done. }
      split; [by rewrite lookup_app_l|done].
    + destruct (Set_present _ _ _ _ v HR Hy) as [Hrun HR'].
      pose proof (spec_set_present _ _ _ v (rep_keys _ _ HR) Hy) as Hv.
      destruct (decide (i0 = i)) as [->|Hne].
      * simplify_eq. eexists _, _, _, i, (with_val v x).
        split; [exact Hrun|]. split; [exact HR'|]. split; [done|].
        split; [by apply list_lookup_insert_eq|done].
      * eexists _, _, _, i, x.
        split; [exact Hrun|]. split; [exact HR'|]. split; [done|].
        split; [by rewrite list_lookup_insert_ne|done].
  - destruct (rep_lookup_key _ _ k HR) as [[Hk Hnin]|(i0 & y & Hy & <-)].
    + exists s, es, 1, i, x. rewrite (Delete_absent _ _ Hk).
      split; [done|]. split; [done|]. split; [|done].
      rewrite spec_delete_absent by by rewrite view_keys. done.
    + assert (i0 ≠ i) as Hne.
      { intros ->. simplify_eq. apply Hdel. simpl. by left. }
      destruct (Delete_present _ _ _ _ HR Hy) as (s' & c & Hrun & _ & HR' & _).
      pose proof (spec_delete_present _ _ _ (rep_keys _ _ HR) Hy) as Hv.
      destruct (decide (i < i0)).
      * exists s', (delete i0 es), c, i, x.
        split; [done|]. split; [done|]. split; [done|].
        split; [by rewrite list_lookup_delete_lt|done].
      * exists s', (delete i0 es), c, (i - 1), x.
        split; [done|]. split; [done|]. split; [done|].
        split; [|done]. rewrite list_lookup_delete_ge by lia.
        by replace (S (i - 1)) with i by lia.
Qed.

Lemma run_ops_keeps ops : ∀ s es i x,
  Rep s es → es !! i = Some x → e_key x ∉ deleted_keys ops →
  ∃ s' es' c i' x',
    run_ops ops s = Ok tt s' c ∧ Rep s' es' ∧
    view es' = fold_left (λ acc o, spec_op o acc) ops (view es) ∧
    es' !! i' = Some x' ∧ e_node x' = e_node x ∧ e_key x' = e_key x.
Proof.
  induction ops as [|o ops IH]; intros s es i x HR Hx Hdel.
  - exists s, es, 0, i, x. done.
  - assert ((e_key x ∉ deleted_keys [o]) ∧ (e_key x ∉ deleted_keys ops))
      as [Hd1 Hd2].
    { unfold deleted_keys in *. destruct o as [k v|k]; simpl in *.
      - split; [apply not_elem_of_nil|done].
      - apply not_elem_of_cons in Hdel as [Hne Hrest].
        split; [|done]. apply not_elem_of_cons.
        split; [done|apply not_elem_of_nil]. }
    destruct (run_op_keeps _ _ o _ _ HR Hx Hd1)
      as (s1 & es1 & c1 & i1 & x1 & Hrun1 & HR1 & Hv1 & Hx1 & Hn1 & Hk1).
    rewrite <- Hk1 in Hd2.
    destruct (IH _ _ _ _ HR1 Hx1 Hd2)
      as (s2 & es2 & c2 & i2 & x2 & Hrun2 & HR2 & Hv2 & Hx2 & Hn2 & Hk2).
    exists s2, es2, (c1 + c2), i2, x2. simpl. unfold bind.
    rewrite Hrun1, Hrun2. rewrite <- Hv1.
    split; [done|]. split; [done|]. split; [done|]. split; [done|].
    split; congruence.
Qed.

Lemma last_key_iff s es i x :
  Rep s es → es !! i = Some x →
  last (view es).*1 = Some (e_key x) ↔ S i = length es.
Proof.
  intros HR Hx. pose proof (lookup_lt_Some _ _ _ Hx) as Hi.
  rewrite view_keys, last_lookup, length_fmap, list_lookup_fmap.
  split.
  - intros Hl. destruct (es !! Init.Nat.pred (length es)) as [y|] eqn:Hy; [|done].
    simpl in Hl. simplify_eq.
    assert (Init.Nat.pred (length es) = i) by by eapply rep_key_inj. lia.
  - intros Hl. replace (Init.Nat.pred (length es)) with i by lia.
    by rewrite Hx.
Qed.

Lemma iterate_history ops s c :
  history ops = Ok tt s c →
  result (iterate (length ops) s) = Some (spec_run ops).
Proof.
  intros Hrun. destruct (history_inv _ _ _ Hrun) as (es & HR & Hv & _).
  pose proof (spec_run_length ops) as Hlen.
  rewrite <- Hv, view_length in Hlen.
  destruct (iterate_run _ _ (length ops) HR Hlen) as (s' & c' & Hit & _).
  by rewrite Hit, Hv.
Qed.

(** * The claims *)

(** C2. For every sequence of [Set] and [Delete] calls on a map created by
    [New], the calls all return, [Len()] is the number of distinct keys
    currently present, and index and sequence are in sync: the nodes of the
    sequence are distinct, so are their keys, the index maps a key to a node
    exactly when that node is in the sequence and carries that key, and a
    traversal sees exactly the keys of the index. *)
Theorem C2_len_and_sync ops :
  ∃ s c es,
    history ops = Ok tt s c ∧ Rep s es ∧
    result (Len s) = Some (Z.of_nat (size (keys_after ops))) ∧
    dom (mapper s) = keys_after ops ∧
    NoDup (e_node <$> es) ∧ NoDup (e_key <$> es) ∧
    (∀ k a, mapper s !! k = Some a ↔
            ∃ i x, es !! i = Some x ∧ e_key x = k ∧ e_node x = a) ∧
    result (iterate (length ops) s) = Some (view es) ∧
    (∀ k, k ∈ (view es).*1 ↔ k ∈ keys_after ops).
Proof.
  destruct (history_rep ops) as (s & c & es & Hrun & HR & Hv & Hd).
  pose proof (spec_run_length ops) as Hlen.
  rewrite <- Hv, view_length in Hlen.
  exists s, c, es. split; [done|]. split; [done|].
  pose proof (rep_dom _ _ HR) as Hdom. rewrite Hd in Hdom.
  split.
  { rewrite Len_run. simpl. rewrite (rep_len _ _ HR). do 2 f_equal.
    rewrite Hdom, size_list_to_set by apply (rep_keys _ _ HR).
    by rewrite length_fmap. }
  split; [done|].
  split. { pose proof (rep_nodes _ _ HR) as Hn. by apply NoDup_cons in Hn as [_ ?]. }
  split; [apply (rep_keys _ _ HR)|].
  split.
  { intros k a. rewrite (rep_index _ _ HR). split.
    - intros (x & Hx & ? & ?). apply list_elem_of_lookup in Hx as [i Hx]. eauto.
    - intros (i & x & Hx & ? & ?). exists x. split; [|done].
      by eapply list_elem_of_lookup_2. }
  split.
  { destruct (iterate_run _ _ (length ops) HR Hlen) as (s' & c' & Hit & _).
    by rewrite Hit. }
  intros k. rewrite view_keys, Hdom, elem_of_list_to_set. done.
Qed.

(** C6. [Get] of a key that is not present (never inserted, or deleted
    since) returns [(nil, false)] as an ordinary result: it does not panic
    and it leaves the state as it was. *)
Theorem C6_get_absent ops s c k :
  history ops = Ok tt s c → k ∉ keys_after ops →
  Get k s = Ok (None, false) s 1.
Proof.
  intros Hrun Hk. destruct (history_inv _ _ _ Hrun) as (es & HR & _ & Hd).
  apply Get_absent. apply not_elem_of_dom. by rewrite Hd.
Qed.

(** C7. [Delete] of a key that is not in the index returns normally and
    leaves the whole state unchanged; so anything run afterwards ([Len],
    [Get], a traversal) behaves as it would have without the call. *)
Theorem C7_delete_absent s k :
  mapper s !! k = None →
  Delete k s = Ok tt s 1 ∧
  ∀ A (m : M A),
    result ((Delete k;; m) s) = result (m s) ∧
    final ((Delete k;; m) s) = final (m s).
Proof.
  intros Hk. pose proof (Delete_absent _ _ Hk) as Hrun.
  split; [done|]. intros A m. unfold bind. rewrite Hrun.
  destruct (m s); done.
Qed.

(** C8. On every map reached from [New] by [Set] and [Delete] calls, each
    of [Set], [Get], [Delete] and [Len] returns after a bounded number of
    primitive steps (heap reads and writes, allocations, and operations of
    the built-in map, each counted as one), whatever the size of the map. *)
Theorem C8_constant_cost ops k v :
  ∃ s c0,
    history ops = Ok tt s c0 ∧
    (∃ s' c, Set_ k v s = Ok tt s' c ∧ c ≤ 24) ∧
    (∃ r c, Get k s = Ok r s c ∧ c ≤ 3) ∧
    (∃ s' c, Delete k s = Ok tt s' c ∧ c ≤ 17) ∧
    (∃ z : Z, Len s = Ok z s 2).
Proof.
  destruct (history_rep ops) as (s & c0 & es & Hrun & HR & _ & _).
  exists s, c0. split; [done|].
  destruct (rep_lookup_key _ _ k HR) as [[Hk Hnin]|(i & x & Hx & <-)].
  - split.
    { destruct (Set_absent _ _ k v HR Hk) as (s' & c & Hs & Hc & _). eauto. }
    split. { rewrite (Get_absent _ _ Hk). exists (None, false), 1. split; [done|lia]. }
    split. { rewrite (Delete_absent _ _ Hk). exists s, 1. split; [done|lia]. }
    by exists (len s).
  - split.
    { destruct (Set_present _ _ _ _ v HR Hx) as [Hs _]. rewrite Hs.
      eexists _, _. split; [done|lia]. }
    split. { rewrite (Get_present _ _ _ _ HR Hx). eexists _, _. split; [done|lia]. }
    split.
    { destruct (Delete_present _ _ _ _ HR Hx) as (s' & c & Hdel & Hc & _). eauto. }
    by exists (len s).
Qed.

(** C3. On every map and for every key [k] already present, [Set(k, v2)]
    writes one [ElemVal] cell and nothing else; afterwards [Get(k)] returns
    [(v2, true)], [Len()] is what it was, and a traversal sees the same keys
    in the same order, with the value of [k] replaced in place. *)
Theorem C3_set_present ops s c k v2 :
  history ops = Ok tt s c → k ∈ keys_after ops →
  ∃ cell l0,
    Set_ k v2 s = Ok tt (set_vals (<[cell := mkElemVal k v2]> (vals s)) s) 3 ∧
    let s' := set_vals (<[cell := mkElemVal k v2]> (vals s)) s in
    result (Get k s') = Some (v2, true) ∧
    result (Len s') = result (Len s) ∧
    result (iterate (length ops) s) = Some l0 ∧
    result (iterate (length ops) s') = Some (spec_set k v2 l0) ∧
    (spec_set k v2 l0).*1 = l0.*1 ∧
    ∃ i v1, l0 !! i = Some (k, v1) ∧ spec_set k v2 l0 = <[i := (k, v2)]> l0.
Proof.
  intros Hrun Hk. destruct (history_inv _ _ _ Hrun) as (es & HR & Hv & Hd).
  pose proof (spec_run_length ops) as Hlen.
  rewrite <- Hv, view_length in Hlen.
  rewrite <- Hd in Hk. apply elem_of_dom in Hk as [a Ha].
  destruct (proj1 (rep_index _ _ HR _ _) Ha) as (x & Hx & Hxk & _). subst k.
  apply list_elem_of_lookup in Hx as [i Hx].
  destruct (Set_present _ _ _ _ v2 HR Hx) as [Hset HR'].
  exists (e_cell x), (view es). split; [done|]. cbv zeta.
  pose proof (lookup_lt_Some _ _ _ Hx) as Hi.
  split.
  { pose proof (Get_present _ _ i (with_val v2 x) HR') as Hget.
    simpl in Hget. rewrite Hget; [done|]. by apply list_lookup_insert_eq. }
  split; [done|].
  destruct (iterate_run _ _ (length ops) HR Hlen) as (s1 & c1 & Hit & _).
  split; [by rewrite Hit|].
  destruct (iterate_run _ _ (length ops) HR') as (s2 & c2 & Hit' & _).
  { by rewrite length_insert. }
  rewrite (spec_set_present _ _ _ v2 (rep_keys _ _ HR) Hx).
  split; [by rewrite Hit'|].
  split.
  { rewrite !view_keys. by erewrite fmap_insert_same. }
  exists i, (e_val x). split.
  - unfold view. by rewrite list_lookup_fmap, Hx.
  - unfold view. by rewrite list_fmap_insert.
Qed.

(** C5. [Delete] of a present key removes exactly that entry, from the
    index and from the sequence: the entries before and after it keep their
    order and values, [Len()] drops by one, and [Get] no longer finds the
    key. *)
Theorem C5_delete_present ops s c k v l1 l2 :
  history ops = Ok tt s c → spec_run ops = l1 ++ (k, v) :: l2 →
  ∃ s' c',
    result (iterate (length ops) s) = Some (l1 ++ (k, v) :: l2) ∧
    Delete k s = Ok tt s' c' ∧
    result (iterate (length ops) s') = Some (l1 ++ l2) ∧
    result (Len s') = Some (Z.of_nat (length (l1 ++ l2))) ∧
    result (Get k s') = Some (None, false) ∧
    dom (mapper s') = dom (mapper s) ∖ {[k]}.
Proof.
  intros Hrun Hl. destruct (history_inv _ _ _ Hrun) as (es & HR & Hv & Hd).
  pose proof (spec_run_length ops) as Hlen.
  rewrite <- Hv, view_length in Hlen. rewrite <- Hv in Hl.
  assert (view es !! length l1 = Some (k, v)) as Hkv.
  { rewrite Hl. by rewrite list_lookup_middle. }
  unfold view in Hkv. apply list_lookup_fmap_Some_1 in Hkv as (x & Hxkv & Hx).
  simplify_eq.
  destruct (Delete_present _ _ _ _ HR Hx)
    as (s' & c' & Hdel & _ & HR' & _ & _ & _ & Hm & _).
  assert (view (delete (length l1) es) = l1 ++ l2) as Hv'.
  { unfold view in *. rewrite list_fmap_delete, Hl. apply delete_middle. }
  exists s', c'.
  destruct (iterate_run _ _ (length ops) HR Hlen) as (s1 & c1 & Hit & _).
  split; [by rewrite Hit, Hl|]. split; [done|].
  destruct (iterate_run _ _ (length ops) HR') as (s2 & c2 & Hit' & _).
  { pose proof (length_delete es (length l1)). rewrite Hx in H.
    specialize (H ltac:(eauto)). lia. }
  split; [by rewrite Hit', Hv'|].
  split.
  { rewrite Len_run. simpl. rewrite (rep_len _ _ HR').
    by rewrite <- Hv', view_length. }
  split.
  { rewrite Get_absent; [done|]. rewrite Hm. apply lookup_delete_eq. }
  rewrite Hm. apply dom_delete_L.
Qed.

(** C1. Distinct keys inserted by [Set] into a new map come back from a
    traversal in the order of their first insertion, whatever later [Set]
    calls on keys already there do to the values; and on a map with any
    history of [Set] and [Delete] calls, [Set] of an absent key puts its
    entry after all the others. *)
Theorem C1_insertion_order (kvs upd : list (string * any)) ops k v :
  NoDup kvs.*1 → Forall (λ kv, kv.1 ∈ kvs.*1) upd → k ∉ keys_after ops →
  (∃ s c l0,
     history ((uncurry OpSet <$> kvs) ++ (uncurry OpSet <$> upd)) = Ok tt s c ∧
     result (iterate (length kvs) s) = Some l0 ∧ l0.*1 = kvs.*1) ∧
  (∃ s c,
     history ops = Ok tt s c ∧
     result (iterate (length ops) s) = Some (spec_run ops) ∧
     result ((Set_ k v;; iterate (S (length ops))) s)
       = Some (spec_run ops ++ [(k, v)])).
Proof.
  intros Hnd Hupd Hk. split.
  - destruct (history_rep ((uncurry OpSet <$> kvs) ++ (uncurry OpSet <$> upd)))
      as (s & c & es & Hrun & HR & Hv & _).
    assert ((view es).*1 = kvs.*1) as Hkeys.
    { rewrite Hv. unfold spec_run. rewrite fold_left_app.
      rewrite (spec_fold_fresh kvs []) by done. simpl.
      by apply spec_fold_updates. }
    destruct (iterate_run _ _ (length kvs) HR) as (s' & c' & Hit & _).
    { rewrite <- (length_fmap fst kvs), <- Hkeys, length_fmap, view_length. done. }
    exists s, c, (view es). rewrite Hit. done.
  - destruct (history_rep ops) as (s & c & es & Hrun & HR & Hv & Hd).
    pose proof (spec_run_length ops) as Hlen.
    rewrite <- Hv, view_length in Hlen.
    exists s, c. split; [done|].
    destruct (iterate_run _ _ (length ops) HR Hlen) as (s1 & c1 & Hit & _).
    split; [by rewrite Hit, Hv|].
    rewrite <- Hd in Hk. apply not_elem_of_dom in Hk.
    destruct (Set_absent _ _ k v HR Hk) as (s' & c' & Hset & _ & HR' & _).
    destruct (iterate_run _ _ (S (length ops)) HR') as (s2 & c2 & Hit' & _).
    { rewrite length_app. simpl. lia. }
    unfold bind. rewrite Hset, Hit'. simpl. rewrite view_app, Hv. done.
Qed.

(** C4. A traversal stands at the [j]-th entry, takes the cursor of the next
    step with [Next], and only then deletes the key it stands at.  Going on
    from the cursor taken visits every entry after the [j]-th, in order,
    with its key and value, and then stops. *)
Theorem C4_delete_during_iteration ops s c j :
  history ops = Ok tt s c → j < length (spec_run ops) →
  result (iterate (length ops) s) = Some (spec_run ops) ∧
  result (delete_at_cursor j (length ops) s) = Some (drop (S j) (spec_run ops)).
Proof.
  intros Hrun Hj. split; [by eapply iterate_history|].
  destruct (history_inv _ _ _ Hrun) as (es & HR & Hv & Hd).
  pose proof (spec_run_length ops) as Hlen.
  rewrite <- Hv in *. rewrite view_length in Hlen, Hj.
  destruct (lookup_lt_is_Some_2 es j Hj) as [x Hx].
  destruct (cursor_at_run _ _ _ _ HR Hx) as (e & s1 & c1 & Hcur & HR1 & Hext1 & Hh1).
  unfold delete_at_cursor, bind. rewrite Hcur.
  pose proof Hh1 as (x0 & Hx0 & He & Hval & Hcell). simplify_eq. simpl in Hval.
  unfold Element_Key, bind, read_val, ret. rewrite Hval. simpl.
  destruct (decide (S j = length es)) as [Hlast|Hmore].
  - rewrite (Next_last _ _ _ _ _ HR1 Hx He Hlast).
    destruct (Delete_present _ _ _ _ HR1 Hx) as (s3 & c3 & Hdel & _).
    rewrite Hdel. unfold view. rewrite <- fmap_drop, drop_ge by lia.
    by destruct (length ops).
  - destruct (lookup_lt_is_Some_2 es (S j)) as [x' Hx']; [lia|].
    rewrite (Next_more _ _ _ _ _ _ HR1 Hx He Hx').
    destruct (snapshot_run _ _ _ _ HR1 Hx') as [_ Hh2].
    set (s2 := salloc s1 _) in *. set (n := mkElement _ _) in *.
    pose proof (Rep_salloc _ _ (mkElemVal (e_key x') (e_val x')) HR1) as HR2.
    fold s2 in HR2.
    destruct (Delete_present _ _ _ _ HR2 Hx)
      as (s3 & c3 & Hdel & _ & HR3 & Hvals & _).
    rewrite Hdel.
    assert (holds s3 (delete j es) n j (e_key x', e_val x')) as Hh3.
    { destruct Hh2 as (y & Hy & Hn & Hnv & Hnc).
      assert (y = x') as -> by congruence.
      exists x'. split; [by rewrite list_lookup_delete_ge by lia|].
      split; [done|]. split; [by rewrite Hvals|].
      intros Hin. apply Hnc. rewrite list_fmap_delete in Hin.
      by eapply list_elem_of_delete_inv. }
    destruct (visit_run (length ops) _ _ _ _ _ HR3 Hh3) as (s4 & c4 & Hvis & _).
    { pose proof (length_delete es j ltac:(eauto)). lia. }
    rewrite Hvis. simpl. f_equal.
    assert (drop (S j) (delete j es) = drop (S (S j)) es) as ->.
    { rewrite delete_take_drop, drop_app, length_take.
      rewrite (drop_ge (take j es)) by (rewrite length_take; lia).
      rewrite drop_drop. simpl. f_equal. lia. }
    rewrite <- (view_drop _ _ _ Hx'). unfold view. by rewrite fmap_drop.
Qed.

(** C9. The handle [e] yielded for the [j]-th entry by [First] ([j = 0]) or
    by [Next] carries a copy of the value the entry had at that moment: a
    later [Set(k, v')] on the map, for the handle's own key or any other,
    does not change [e.Value], and assigning [e.Value = x] changes what the
    handle holds but not what [Get(k)] returns. *)
Theorem C9_element_is_a_copy ops s c j kj vj k v' w :
  history ops = Ok tt s c → spec_run ops !! j = Some (kj, vj) →
  result (iterate (length ops) s) = Some (spec_run ops) ∧
  result (probe j k v' w s) = Some (vj, vj, (v', true), (v', true), w).
Proof.
  intros Hrun Hj. split; [by eapply iterate_history|].
  destruct (history_inv _ _ _ Hrun) as (es & HR & Hv & Hd).
  rewrite <- Hv in Hj. unfold view in Hj.
  apply list_lookup_fmap_Some_1 in Hj as (y & Hykv & Hy). simplify_eq.
  destruct (cursor_at_run _ _ _ _ HR Hy) as (e & s1 & c1 & Hcur & HR1 & _ & Hh1).
  unfold probe, bind. rewrite Hcur.
  pose proof Hh1 as (y0 & Hy0 & He & Hval & Hcell). simpl in Hval.
  rewrite (Element_Value_run _ _ _ Hval). simpl.
  destruct (Set_keeps_handle _ _ _ _ _ k v' HR1 Hh1)
    as (s2 & es2 & c2 & i & x' & Hset & HR2 & Hx' & Hk & Hv' & Hvals & Hcell2).
  rewrite Hset. subst k v'. rewrite Hval in Hvals.
  rewrite (Element_Value_run _ _ _ Hvals). simpl.
  rewrite (Get_present _ _ _ _ HR2 Hx').
  unfold Element_set_Value, write_val. rewrite Hvals.
  set (s3 := set_vals _ s2).
  assert (Rep s3 es2) as HR3.
  { apply Rep_write_foreign; [done|done|]. rewrite Hvals. eauto. }
  rewrite (Get_present _ _ _ _ HR3 Hx').
  rewrite (Element_Value_run s3 e (with_Value w (mkElemVal (e_key y) (e_val y)))).
  - done.
  - simpl. by rewrite lookup_insert_eq.
Qed.

(** C10, amended. [First()] is nil exactly when [Len()] is 0.  [Next()] of
    the handle a traversal got for an entry, asked after any further [Set]
    and [Delete] calls that do not delete that entry's key, is nil exactly
    when the entry is then the last of the sequence.  A traversal from
    [First] stops after exactly [Len()] entries. *)
Theorem C10_end_of_traversal ops s c :
  history ops = Ok tt s c →
  result (iterate (length ops) s) = Some (spec_run ops) ∧
  result (first_is_nil s) = Some (bool_decide (len s = 0%Z)) ∧
  result (Len s) = Some (len s) ∧
  (∀ j kj vj ops',
     spec_run ops !! j = Some (kj, vj) → kj ∉ deleted_keys ops' →
     result (next_is_nil j ops' s)
     = Some (bool_decide (last (spec_run (ops ++ ops')).*1 = Some kj))) ∧
  ∃ l0, result (iterate (Z.to_nat (len s)) s) = Some l0 ∧
        Z.of_nat (length l0) = len s.
Proof.
  intros Hrun. split; [by eapply iterate_history|].
  destruct (history_inv _ _ _ Hrun) as (es & HR & Hv & Hd).
  split.
  { unfold first_is_nil, bind. destruct es as [|x0 es'] eqn:Hes.
    - rewrite (First_empty _ HR). simpl.
      rewrite bool_decide_eq_true_2; [done|]. by rewrite (rep_len _ _ HR).
    - rewrite (First_nonempty _ _ x0 HR) by done. simpl.
      rewrite bool_decide_eq_false_2; [done|]. rewrite (rep_len _ _ HR).
      simpl. lia. }
  split; [done|].
  split.
  { intros j kj vj ops' Hj Hdel. rewrite <- Hv in Hj. unfold view in Hj.
    apply list_lookup_fmap_Some_1 in Hj as (x & Hxkv & Hx). simplify_eq.
    destruct (cursor_at_run _ _ _ _ HR Hx) as (e & s1 & c1 & Hcur & HR1 & _ & Hh1).
    unfold next_is_nil, bind. rewrite Hcur.
    pose proof Hh1 as (y & Hy & He & _). assert (y = x) as -> by congruence.
    destruct (run_ops_keeps ops' _ _ _ _ HR1 Hx Hdel)
      as (s2 & es2 & c2 & i2 & x2 & Hrun2 & HR2 & Hv2 & Hx2 & Hn2 & Hk2).
    rewrite Hrun2. rewrite <- Hn2 in He.
    unfold spec_run. rewrite fold_left_app. fold (spec_run ops).
    rewrite <- Hv, <- Hv2, <- Hk2.
    pose proof (last_key_iff _ _ _ _ HR2 Hx2) as Hlast.
    destruct (decide (S i2 = length es2)) as [Hl|Hm].
    - rewrite (Next_last _ _ _ _ _ HR2 Hx2 He Hl). simpl.
      rewrite bool_decide_eq_true_2; [done|]. by apply Hlast.
    - destruct (lookup_lt_is_Some_2 es2 (S i2)) as [x' Hx'].
      { apply lookup_lt_Some in Hx2. lia. }
      rewrite (Next_more _ _ _ _ _ _ HR2 Hx2 He Hx'). simpl.
      rewrite bool_decide_eq_false_2; [done|]. by rewrite Hlast. }
  destruct (iterate_run _ _ (Z.to_nat (len s)) HR) as (s' & c' & Hit & _).
  { rewrite (rep_len _ _ HR). lia. }
  exists (view es). rewrite Hit. split; [done|].
  by rewrite view_length, (rep_len _ _ HR).
Qed.

(** * Further properties *)

(** ** [Get] against the association list *)

Lemma spec_get_absent k (l0 : list (string * any)) :
  k ∉ l0.*1 → spec_get k l0 = (None, false).
Proof.
  induction l0 as [|[k' v'] l0 IH]; simpl; [done|]. intros Hk.
  apply not_elem_of_cons in Hk as [Hne Hk].
  rewrite decide_False by done. auto.
Qed.

Lemma spec_get_middle k v (l1 l2 : list (string * any)) :
  k ∉ l1.*1 → spec_get k (l1 ++ (k, v) :: l2) = (v, true).
Proof.
  induction l1 as [|[k' v'] l1 IH]; simpl; intros Hk.
  - by rewrite decide_True.
  - apply not_elem_of_cons in Hk as [Hne Hk].
    rewrite decide_False by done. auto.
Qed.

Lemma spec_get_set_eq k v (l0 : list (string * any)) :
  spec_get k (spec_set k v l0) = (v, true).
Proof.
  induction l0 as [|[k' v'] l0 IH]; simpl.
  - by rewrite decide_True.
  - case_decide; simpl.
    + by rewrite decide_True.
    + by rewrite decide_False.
Qed.

Lemma spec_get_set_ne k k' v (l0 : list (string * any)) :
  k' ≠ k → spec_get k' (spec_set k v l0) = spec_get k' l0.
Proof.
  intros Hne. induction l0 as [|[k0 v0] l0 IH]; simpl.
  - by rewrite decide_False.
  - destruct (decide (k0 = k)) as [->|Hk0]; simpl.
    + by rewrite !decide_False by done.
    + case_decide; [done|]. exact IH.
Qed.

Lemma spec_delete_keys k (l0 : list (string * any)) :
  NoDup l0.*1 → k ∉ (spec_delete k l0).*1.
Proof.
  induction l0 as [|[k0 v0] l0 IH]; simpl; intros Hnd.
  - apply not_elem_of_nil.
  - apply NoDup_cons in Hnd as [Hk0 Hnd].
    destruct (decide (k0 = k)) as [->|Hne]; [done|].
    simpl. apply not_elem_of_cons. split; [done|]. auto.
Qed.

Lemma spec_get_delete_ne k k' (l0 : list (string * any)) :
  k' ≠ k → spec_get k' (spec_delete k l0) = spec_get k' l0.
Proof.
  intros Hne. induction l0 as [|[k0 v0] l0 IH]; simpl; [done|].
  destruct (decide (k0 = k)) as [->|Hk0]; simpl.
  - by rewrite decide_False.
  - case_decide; [done|]. exact IH.
Qed.

Lemma spec_set_set k v1 v2 (l0 : list (string * any)) :
  spec_set k v2 (spec_set k v1 l0) = spec_set k v2 l0.
Proof.
  induction l0 as [|[k0 v0] l0 IH]; simpl.
  - by rewrite decide_True.
  - destruct (decide (k0 = k)) as [->|Hk0]; simpl.
    + by rewrite decide_True.
    + rewrite decide_False by done. by rewrite IH.
Qed.

Lemma spec_get_lookup (l0 : list (string * any)) i k v :
  NoDup l0.*1 → l0 !! i = Some (k, v) → spec_get k l0 = (v, true).
Proof.
  revert i. induction l0 as [|[k0 v0] l0 IH]; intros i Hnd Hi; [done|].
  simpl in Hnd. apply NoDup_cons in Hnd as [Hk0 Hnd]. simpl.
  destruct i as [|i]; simpl in Hi.
  - simplify_eq. by rewrite decide_True.
  - rewrite decide_False; [by eapply IH|].
    intros ->. apply Hk0. apply list_elem_of_fmap. exists (k, v).
    split; [done|]. by eapply list_elem_of_lookup_2.
Qed.

(** [Get] reads the association list and changes nothing. *)
Lemma Get_spec s es k :
  Rep s es → ∃ c, Get k s = Ok (spec_get k (view es)) s c ∧ c ≤ 3.
Proof.
  intros HR. destruct (rep_lookup_key _ _ k HR) as [[Hk Hnin]|(i & x & Hx & <-)].
  - exists 1. rewrite (Get_absent _ _ Hk).
    rewrite spec_get_absent by by rewrite view_keys. split; [done|lia].
  - exists 3. rewrite (Get_present _ _ _ _ HR Hx).
    rewrite (view_split _ _ _ Hx), spec_get_middle; [split; [done|lia]|].
    apply key_not_before; [apply (rep_keys _ _ HR)|done].
Qed.

Lemma view_NoDup s es : Rep s es → NoDup (view es).*1.
Proof. intros HR. rewrite view_keys. apply (rep_keys _ _ HR). Qed.

(** ** Elements outside the ring are left alone *)

Lemma node_at_in_ring r es i : node_at r es i ∈ r :: (e_node <$> es).
Proof.
  destruct (decide (i < length es)) as [Hi|Hi].
  - apply elem_of_cons. right. by apply node_at_elem.
  - rewrite node_at_ge by lia. apply elem_of_cons. by left.
Qed.

Lemma prev_at_in_ring r es i : prev_at r es i ∈ r :: (e_node <$> es).
Proof.
  destruct i; simpl; [apply elem_of_cons; by left|apply node_at_in_ring].
Qed.

Lemma Set_absent_frame s es k v s' c :
  Rep s es → mapper s !! k = None → Set_ k v s = Ok tt s' c →
  ∀ a, a < brk s → a ∉ lister s :: (e_node <$> es) →
       elems s' !! a = elems s !! a.
Proof.
  intros HR Hk.
  destruct (rep_last_next _ _ HR) as (ca & Hca & Hcan).
  pose proof (rep_root _ _ HR) as Hroot.
  pose proof (rep_root_lt _ _ HR) as Hrlt.
  assert (prev_at (lister s) es (length es) < brk s) as Htlt.
  { apply (rep_elems_brk _ _ HR (prev_at (lister s) es (length es))).
    rewrite Hca. eauto. }
  set (s2 := set_brk (S (S (brk s)))
               (set_elems (<[S (brk s) := mkListElement None None None (Some (brk s))]> (elems s))
                  (set_vals (<[brk s := mkElemVal k v]> (vals s)) s))).
  destruct (list_insert_spec s2 (lister s) (S (brk s))
              (prev_at (lister s) es (length es))
              (mkListElement None None None (Some (brk s))) ca (lister s))
    as (h & c0 & Hrun & Hc & Hh).
  { simpl. by rewrite lookup_insert_eq. }
  { simpl. rewrite lookup_insert_ne by lia. done. }
  { done. }
  { lia. }
  { lia. }
  { simpl. rewrite lookup_insert_ne by lia. rewrite Hroot. eauto. }
  unfold Set_, bind, map_lookup. rewrite Hk.
  unfold new_val, read_lister, list_PushBack, list_lazyInit, bind, read_elem.
  unfold list_insertValue, list_Init, deref, ret, bind, new_elem, map_store.
  repeat first [progress simpl | rewrite Hroot].
  match goal with |- context [list_insert _ _ _ ?st] => change st with s2 end.
  rewrite Hrun. simpl.
  intros Heq a Ha Hring. simplify_eq. simpl.
  rewrite Hh. rewrite decide_False by lia. simpl.
  rewrite lookup_insert_ne by lia.
  destruct (elems s !! a) as [ce|]; [|done]. simpl. f_equal.
  unfold relink. rewrite !decide_False; [done| |].
  - intros ->. apply Hring. apply prev_at_in_ring.
  - intros ->. apply Hring. apply elem_of_cons. by left.
Qed.

Lemma Delete_present_frame s es i x s' c :
  Rep s es → es !! i = Some x → Delete (e_key x) s = Ok tt s' c →
  ∀ a, a ∉ lister s :: (e_node <$> es) → elems s' !! a = elems s !! a.
Proof.
  intros HR Hx.
  pose proof (rep_nodes _ _ HR) as Hnd.
  pose proof (rep_node _ _ HR i x Hx) as Hcx.
  pose proof (lookup_lt_Some _ _ _ Hx) as Hi.
  pose proof (node_at_lookup (lister s) _ _ _ Hx) as Hxi.
  set (p := prev_at (lister s) es i) in *.
  set (n := node_at (lister s) es (S i)) in *.
  destruct (list_remove_spec s (lister s) (e_node x) _ p n Hcx)
    as (h & c0 & Hrun & Hc & Hh); [done|done|..].
  { rewrite <- Hxi. intros Heq. symmetry in Heq. by eapply prev_at_ne. }
  { rewrite <- Hxi. intros Heq. symmetry in Heq. by eapply next_at_ne. }
  { by apply rep_prev_at. }
  { by apply rep_node_at. }
  unfold Delete, bind, map_lookup, read_lister, list_Remove, bind, read_elem, ret, map_delete.
  rewrite (rep_mapper _ _ _ _ HR Hx). simpl.
  rewrite Hcx. simpl. rewrite decide_True by done.
  rewrite Hrun. simpl. rewrite Hh, decide_True by done. simpl.
  intros Heq a Hring. simplify_eq. simpl.
  rewrite Hh. rewrite decide_False; last first.
  { intros ->. apply Hring. apply elem_of_cons. right.
    apply list_elem_of_fmap. exists x. split; [done|].
    by eapply list_elem_of_lookup_2. }
  destruct (elems s !! a) as [ce|]; [|done]. simpl. f_equal.
  unfold unlink. rewrite !decide_False; [done| |].
  - intros ->. apply Hring. apply prev_at_in_ring.
  - intros ->. apply Hring. apply node_at_in_ring.
Qed.

Lemma run_op_stale s es o a (q : ptr) (cq : ElemVal) :
  Rep s es → detached s es a →
  vals s !! q = Some cq → q ∉ e_cell <$> es →
  ∃ s' es' c,
    run_op o s = Ok tt s' c ∧ Rep s' es' ∧ detached s' es' a ∧
    vals s' !! q = Some cq ∧ q ∉ e_cell <$> es'.
Proof.
  intros HR [Hring (ca & Ha & Hlist)] Hq Hqc.
  assert (a < brk s) as Hlt.
  { apply (rep_elems_brk _ _ HR). rewrite Ha. eauto. }
  assert (q < brk s) as Hqlt.
  { apply (rep_vals_brk _ _ HR). rewrite Hq. eauto. }
  destruct o as [k v|k]; simpl.
  - destruct (rep_lookup_key _ _ k HR) as [[Hk Hnin]|(i & x & Hx & <-)].
    + destruct (Set_absent _ _ k v HR Hk)
        as (s' & c & Hrun & _ & HR' & Hvals & _ & Hl & _).
      exists s', (es ++ [mkEntry (S (brk s)) (brk s) k v]), c.
      split; [done|]. split; [done|]. split; [split|split].
      * rewrite Hl, fmap_app, app_comm_cons. intros Hin.
        apply elem_of_app in Hin as [Hin|Hin]; [done|].
        apply list_elem_of_singleton in Hin. simpl in Hin. lia.
      * exists ca. split; [|done].
        by rewrite (Set_absent_frame _ _ _ _ _ _ HR Hk Hrun a Hlt Hring).
      * rewrite Hvals, lookup_insert_ne by lia. done.
      * rewrite fmap_app. intros Hin.
        apply elem_of_app in Hin as [Hin|Hin]; [done|].
        apply list_elem_of_singleton in Hin. simpl in Hin. lia.
    + destruct (Set_present _ _ _ _ v HR Hx) as [Hrun HR'].
      eexists _, _, _. split; [exact Hrun|]. split; [exact HR'|].
      split; [split|split].
      * simpl. by rewrite (fmap_insert_same e_node _ _ x).
      * exists ca. done.
      * simpl. rewrite lookup_insert_ne; [done|]. intros <-. apply Hqc.
        apply list_elem_of_fmap. exists x. split; [done|].
        by eapply list_elem_of_lookup_2.
      * by rewrite (fmap_insert_same e_cell _ _ x).
  - destruct (rep_lookup_key _ _ k HR) as [[Hk Hnin]|(i & x & Hx & <-)].
    + exists s, es, 1. rewrite (Delete_absent _ _ Hk).
      split; [done|]. split; [done|]. split; [split; [done|]|done].
      exists ca. done.
    + destruct (Delete_present _ _ _ _ HR Hx)
        as (s' & c & Hrun & _ & HR' & Hvals & _ & Hl & _).
      exists s', (delete i es), c.
      split; [done|]. split; [done|]. split; [split|split].
      * rewrite Hl. intros Hin. apply Hring.
        apply elem_of_cons in Hin as [Hin|Hin]; apply elem_of_cons; [by left|].
        right. rewrite list_fmap_delete in Hin.
        by eapply list_elem_of_delete_inv.
      * exists ca. split; [|done].
        by rewrite (Delete_present_frame _ _ _ _ _ _ HR Hx Hrun a Hring).
      * by rewrite Hvals.
      * rewrite list_fmap_delete. intros Hin. apply Hqc.
        by eapply list_elem_of_delete_inv.
Qed.

Lemma run_ops_stale ops : ∀ s es a (q : ptr) (cq : ElemVal),
  Rep s es → detached s es a →
  vals s !! q = Some cq → q ∉ e_cell <$> es →
  ∃ s' es' c,
    run_ops ops s = Ok tt s' c ∧ Rep s' es' ∧ detached s' es' a ∧
    vals s' !! q = Some cq ∧ q ∉ e_cell <$> es'.
Proof.
  induction ops as [|o ops IH]; intros s es a q cq HR Hd Hq Hqc; simpl.
  - exists s, es, 0. done.
  - destruct (run_op_stale _ _ o _ _ _ HR Hd Hq Hqc)
      as (s1 & es1 & c1 & Hrun1 & HR1 & Hd1 & Hq1 & Hqc1).
    destruct (IH _ _ _ _ _ HR1 Hd1 Hq1 Hqc1)
      as (s2 & es2 & c2 & Hrun2 & HR2 & Hd2 & Hq2 & Hqc2).
    exists s2, es2, (c1 + c2). unfold bind. by rewrite Hrun1, Hrun2.
Qed.

Lemma NoDup_delete_lookup {A} (l0 : list A) j (z : A) :
  NoDup l0 → l0 !! j = Some z → z ∉ delete j l0.
Proof.
  intros Hnd Hj. rewrite <- (take_drop_middle _ _ _ Hj) in Hnd.
  rewrite delete_take_drop.
  apply NoDup_app in Hnd as (_ & H1 & H2).
  apply NoDup_cons in H2 as [H2 _].
  intros Hin. apply elem_of_app in Hin as [Hin|Hin]; [|done].
  apply (H1 _ Hin). apply elem_of_cons. by left.
Qed.

(** [Delete] leaves the node of the entry it took out detached. *)
Lemma Delete_detaches s es i x :
  Rep s es → es !! i = Some x →
  ∃ s' c, Delete (e_key x) s = Ok tt s' c ∧ Rep s' (delete i es) ∧
          vals s' = vals s ∧ detached s' (delete i es) (e_node x).
Proof.
  intros HR Hx.
  destruct (Delete_present _ _ _ _ HR Hx)
    as (s' & c & Hrun & _ & HR' & Hvals & _ & Hl & _ & Hcell).
  exists s', c. split; [done|]. split; [done|]. split; [done|]. split.
  - rewrite Hl. pose proof (rep_nodes _ _ HR) as Hnd.
    apply NoDup_cons in Hnd as [Hr Hnd]. intros Hin.
    apply elem_of_cons in Hin as [Hin|Hin].
    + apply Hr. rewrite <- Hin. apply list_elem_of_fmap. exists x.
      split; [done|]. by eapply list_elem_of_lookup_2.
    + rewrite list_fmap_delete in Hin.
      eapply (NoDup_delete_lookup _ i); [exact Hnd| |exact Hin].
      by rewrite list_lookup_fmap, Hx.
  - eexists. split; [exact Hcell|done].
Qed.

(** [Next] on a handle whose list element is detached is nil. *)
Lemma Next_detached s es (e : Element) :
  detached s es (elem e) → Next e s = Ok None s 1.
Proof.
  intros [_ (c & Hc & Hlist)].
  unfold Next, list_Element_Next, bind, read_elem, ret.
  rewrite Hc. simpl. by rewrite Hlist.
Qed.

(** ** The deletion loop *)

Lemma drain_from_nil fuel s : drain_from fuel None s = Ok [] s 0.
Proof. by destruct fuel. Qed.

Lemma drain_from_run fuel : ∀ s es (e : Element) x,
  Rep s es → es !! 0 = Some x → holds s es e 0 (e_key x, e_val x) →
  length es ≤ fuel →
  ∃ s' c, drain_from fuel (Some e) s = Ok (e_key <$> es) s' c ∧ Rep s' [].
Proof.
  induction fuel as [|fuel IH]; intros s es e x HR Hx Hh Hlen.
  { apply lookup_lt_Some in Hx. lia. }
  pose proof Hh as (x0 & Hx0 & He & Hval & Hcell). simplify_eq. simpl in Hval.
  simpl drain_from. unfold bind.
  rewrite (Element_Key_run _ _ _ Hval). simpl.
  destruct es as [|y es']; [done|]. simpl in Hx. simplify_eq.
  destruct es' as [|x' es''].
  - rewrite (Next_last _ _ 0 _ _ HR eq_refl He eq_refl).
    destruct (Delete_present _ _ 0 _ HR eq_refl) as (s3 & c3 & Hdel & _ & HR3 & _).
    rewrite Hdel, drain_from_nil. simpl. eexists _, _. split; [reflexivity|done].
  - rewrite (Next_more _ _ 0 _ x' _ HR eq_refl He eq_refl).
    destruct (snapshot_run _ _ 1 x' HR eq_refl) as [_ Hh2].
    set (s2 := salloc s _) in *. set (n := mkElement _ _) in *.
    pose proof (Rep_salloc _ _ (mkElemVal (e_key x') (e_val x')) HR) as HR2.
    fold s2 in HR2.
    destruct (Delete_present _ _ 0 _ HR2 eq_refl)
      as (s3 & c3 & Hdel & _ & HR3 & Hvals & _).
    rewrite Hdel. simpl in HR3.
    assert (holds s3 (x' :: es'') n 0 (e_key x', e_val x')) as Hh3.
    { destruct Hh2 as (y0 & Hy0 & Hn & Hnv & Hnc). simpl in Hy0. simplify_eq.
      exists y0. split; [done|]. split; [done|]. split; [by rewrite Hvals|].
      intros Hin. apply Hnc. simpl. apply elem_of_cons. by right. }
    destruct (IH _ _ _ _ HR3 eq_refl Hh3) as (s4 & c4 & Hrun & HR4).
    { simpl in *. lia. }
    rewrite Hrun. simpl. eexists _, _. split; [reflexivity|done].
Qed.

Lemma drain_run s es fuel :
  Rep s es → length es ≤ fuel →
  ∃ s' c, drain fuel s = Ok (e_key <$> es) s' c ∧ Rep s' [].
Proof.
  intros HR Hlen. unfold drain, bind.
  destruct es as [|x es'] eqn:Hes.
  - rewrite (First_empty _ HR), drain_from_nil. simpl. exists s, 2. done.
  - rewrite (First_nonempty _ _ x HR) by done.
    destruct (snapshot_run _ _ 0 x HR eq_refl) as [_ Hh].
    pose proof (Rep_salloc _ _ (mkElemVal (e_key x) (e_val x)) HR) as HR1.
    destruct (drain_from_run fuel _ _ _ x HR1 eq_refl Hh Hlen)
      as (s' & c & Hrun & HR').
    rewrite Hrun. eexists _, _. split; [reflexivity|done].
Qed.

(** X1. On a map with any history, [Set(k, v)] followed by [Get(k)] returns
    [(v, true)], whether [k] was present or not and also when [v] is nil;
    [Get] of any other key returns what it returned before the [Set]. *)
Theorem X1_set_then_get ops s c k v :
  history ops = Ok tt s c →
  ∃ s' c',
    Set_ k v s = Ok tt s' c' ∧
    result (Get k s') = Some (v, true) ∧
    ∀ k', k' ≠ k → result (Get k' s') = result (Get k' s).
Proof.
  intros Hrun. destruct (history_inv _ _ _ Hrun) as (es & HR & Hv & Hd).
  destruct (run_op_refines _ _ (OpSet k v) HR)
    as (s' & es' & c' & Hset & _ & HR' & Hv' & _).
  simpl in Hset, Hv'. exists s', c'. split; [done|]. split.
  - destruct (Get_spec _ _ k HR') as (c1 & -> & _). simpl.
    by rewrite Hv', spec_get_set_eq.
  - intros k' Hne.
    destruct (Get_spec _ _ k' HR') as (c1 & -> & _).
    destruct (Get_spec _ _ k' HR) as (c2 & -> & _). simpl.
    by rewrite Hv', spec_get_set_ne.
Qed.

(** X2. On a map with any history, after [Delete(k)] the key is gone:
    [Get(k)] returns [(nil, false)], [Get] of any other key returns what it
    returned before, and a second [Delete(k)] leaves the whole state as it
    is. *)
Theorem X2_delete_then_get ops s c k :
  history ops = Ok tt s c →
  ∃ s' c',
    Delete k s = Ok tt s' c' ∧
    result (Get k s') = Some (None, false) ∧
    (∀ k', k' ≠ k → result (Get k' s') = result (Get k' s)) ∧
    Delete k s' = Ok tt s' 1.
Proof.
  intros Hrun. destruct (history_inv _ _ _ Hrun) as (es & HR & Hv & Hd).
  destruct (run_op_refines _ _ (OpDelete k) HR)
    as (s' & es' & c' & Hdel & _ & HR' & Hv' & _).
  simpl in Hdel, Hv'. exists s', c'. split; [done|].
  assert (k ∉ (view es').*1) as Hgone.
  { rewrite Hv'. apply spec_delete_keys. by eapply view_NoDup. }
  assert (mapper s' !! k = None) as Hm.
  { destruct (rep_lookup_key _ _ k HR') as [[Hk _]|(i & x & Hx & Hxk)]; [done|].
    exfalso. apply Hgone. rewrite view_keys, <- Hxk.
    apply list_elem_of_fmap. exists x. split; [done|].
    by eapply list_elem_of_lookup_2. }
  split; [by rewrite (Get_absent _ _ Hm)|]. split.
  - intros k' Hne.
    destruct (Get_spec _ _ k' HR') as (c1 & -> & _).
    destruct (Get_spec _ _ k' HR) as (c2 & -> & _). simpl.
    by rewrite Hv', spec_get_delete_ne.
  - by apply Delete_absent.
Qed.

(** X3. A key that is deleted and set again does not get its old place
    back: after [Delete(k); Set(k, v')] its entry is the last of the
    sequence and the others keep their order, whereas [Set(k, v')] alone
    leaves the entry where it is. *)
Theorem X3_delete_then_set_moves_to_tail ops s c k v v' l1 l2 :
  history ops = Ok tt s c → spec_run ops = l1 ++ (k, v) :: l2 →
  result ((Delete k;; Set_ k v';; iterate (S (length ops))) s)
    = Some (l1 ++ l2 ++ [(k, v')]) ∧
  result ((Set_ k v';; iterate (S (length ops))) s)
    = Some (l1 ++ (k, v') :: l2).
Proof.
  intros Hrun Hl. destruct (history_inv _ _ _ Hrun) as (es & HR & Hv & Hd).
  pose proof (spec_run_length ops) as Hlen.
  pose proof (view_NoDup _ _ HR) as Hnd. rewrite Hv, Hl in Hnd.
  rewrite fmap_app in Hnd. simpl in Hnd.
  apply NoDup_app in Hnd as (Hnd1 & Hdis & Hnd2).
  apply NoDup_cons in Hnd2 as [Hk2 Hnd2].
  assert (k ∉ l1.*1) as Hk1.
  { intros Hin. apply (Hdis _ Hin). apply elem_of_cons. by left. }
  split.
  - destruct (run_op_refines _ _ (OpDelete k) HR)
      as (s1 & es1 & c1 & Hdel & _ & HR1 & Hv1 & _).
    destruct (run_op_refines _ _ (OpSet k v') HR1)
      as (s2 & es2 & c2 & Hset & _ & HR2 & Hv2 & _).
    simpl in Hdel, Hset, Hv1, Hv2.
    rewrite Hv, Hl, spec_delete_middle in Hv1 by done.
    rewrite Hv1, spec_set_absent in Hv2; last first.
    { rewrite fmap_app. intros Hin. apply elem_of_app in Hin as [Hin|Hin]; done. }
    destruct (iterate_run _ _ (S (length ops)) HR2) as (s3 & c3 & Hit & _).
    { rewrite <- (view_length es2), Hv2. rewrite Hl in Hlen.
      rewrite !length_app in *. simpl in *. lia. }
    unfold bind. rewrite Hdel, Hset, Hit. simpl. by rewrite Hv2, <- app_assoc.
  - destruct (run_op_refines _ _ (OpSet k v') HR)
      as (s2 & es2 & c2 & Hset & _ & HR2 & Hv2 & _).
    simpl in Hset, Hv2. rewrite Hv, Hl, spec_set_middle in Hv2 by done.
    destruct (iterate_run _ _ (S (length ops)) HR2) as (s3 & c3 & Hit & _).
    { rewrite <- (view_length es2), Hv2. rewrite Hl in Hlen.
      rewrite !length_app in *. simpl in *. lia. }
    unfold bind. rewrite Hset, Hit. simpl. by rewrite Hv2.
Qed.

(** X4. The last [Set] of a key wins: on a map with any history,
    [Set(k, v1); Set(k, v2)] leaves the same sequence of keys and values
    as [Set(k, v2)] alone, and [Get(k)] then returns [(v2, true)]. *)
Theorem X4_last_set_wins ops s c k v1 v2 :
  history ops = Ok tt s c →
  ∃ l0,
    result ((Set_ k v1;; Set_ k v2;; iterate (S (length ops))) s) = Some l0 ∧
    result ((Set_ k v2;; iterate (S (length ops))) s) = Some l0 ∧
    result ((Set_ k v1;; Set_ k v2;; Get k) s) = Some (v2, true).
Proof.
  intros Hrun. destruct (history_inv _ _ _ Hrun) as (es & HR & Hv & Hd).
  pose proof (spec_run_length ops) as Hlen.
  destruct (run_op_refines _ _ (OpSet k v1) HR)
    as (s1 & es1 & c1 & Hset1 & _ & HR1 & Hv1 & _).
  destruct (run_op_refines _ _ (OpSet k v2) HR1)
    as (s2 & es2 & c2 & Hset2 & _ & HR2 & Hv2 & _).
  destruct (run_op_refines _ _ (OpSet k v2) HR)
    as (s3 & es3 & c3 & Hset3 & _ & HR3 & Hv3 & _).
  simpl in Hset1, Hset2, Hset3, Hv1, Hv2, Hv3.
  rewrite Hv1, spec_set_set in Hv2.
  assert (length (spec_set k v2 (view es)) ≤ S (length ops)) as Hfuel.
  { pose proof (spec_set_length k v2 (view es)). rewrite Hv in *. lia. }
  destruct (iterate_run _ _ (S (length ops)) HR2) as (s4 & c4 & Hit2 & _).
  { by rewrite <- (view_length es2), Hv2. }
  destruct (iterate_run _ _ (S (length ops)) HR3) as (s5 & c5 & Hit3 & _).
  { by rewrite <- (view_length es3), Hv3. }
  exists (spec_set k v2 (view es)). unfold bind.
  rewrite Hset1, Hset2, Hset3, Hit2, Hit3. simpl.
  split; [by rewrite Hv2|]. split; [by rewrite Hv3|].
  destruct (Get_spec _ _ k HR2) as (c6 & -> & _). simpl.
  by rewrite Hv2, spec_get_set_eq.
Qed.

(** X5. Pairs with distinct keys, set one after the other on a new map, are
    the map: a traversal yields exactly these pairs, keys and values, in the
    order of the calls; [Len] is their number; [Get] of each key returns its
    value. *)
Theorem X5_fresh_inserts (kvs : list (string * any)) :
  NoDup kvs.*1 →
  ∃ s c,
    history (uncurry OpSet <$> kvs) = Ok tt s c ∧
    result (iterate (length kvs) s) = Some kvs ∧
    result (Len s) = Some (Z.of_nat (length kvs)) ∧
    ∀ i k v, kvs !! i = Some (k, v) → result (Get k s) = Some (v, true).
Proof.
  intros Hnd.
  destruct (history_rep (uncurry OpSet <$> kvs)) as (s & c & es & Hrun & HR & Hv & _).
  assert (view es = kvs) as Hkvs.
  { rewrite Hv. unfold spec_run. by rewrite (spec_fold_fresh kvs []). }
  exists s, c. split; [done|].
  destruct (iterate_run _ _ (length kvs) HR) as (s' & c' & Hit & _).
  { by rewrite <- Hkvs, view_length. }
  split; [by rewrite Hit, Hkvs|]. split.
  - rewrite Len_run. simpl. by rewrite (rep_len _ _ HR), <- Hkvs, view_length.
  - intros i k v Hi. destruct (Get_spec _ _ k HR) as (c1 & -> & _). simpl.
    rewrite Hkvs. f_equal. by eapply spec_get_lookup.
Qed.

(** X6. The deletion loop of the package comment, which takes [e.Next()]
    before it deletes [e.Key], run on a map with any history: it deletes
    every key once, in sequence order, and leaves the map empty ([Len] is
    0, a traversal yields nothing, no key is found). *)
Theorem X6_drain_empties_the_map ops s c :
  history ops = Ok tt s c →
  ∃ s' c',
    drain (length ops) s = Ok (spec_run ops).*1 s' c' ∧
    result (Len s') = Some 0%Z ∧
    result (iterate 0 s') = Some [] ∧
    ∀ k, result (Get k s') = Some (None, false).
Proof.
  intros Hrun. destruct (history_inv _ _ _ Hrun) as (es & HR & Hv & Hd).
  pose proof (spec_run_length ops) as Hlen.
  rewrite <- Hv, view_length in Hlen.
  destruct (drain_run _ _ (length ops) HR Hlen) as (s' & c' & Hdr & HR').
  exists s', c'. rewrite <- Hv, view_keys. split; [done|]. split.
  - rewrite Len_run. simpl. by rewrite (rep_len _ _ HR').
  - split.
    + unfold iterate, bind. by rewrite (First_empty _ HR').
    + intros k. by destruct (Get_spec _ _ k HR') as (c1 & -> & _).
Qed.

(** X7. Once the entry of a handle [e] has been deleted, [e.Next()] is nil
    and stays nil whatever [Set] and [Delete] calls follow, also when the
    same key is set again, while [e.Key] and [e.Value] still read the key
    and the value the entry had when the handle was made; none of the three
    panics. *)
Theorem X7_deleted_handle_has_no_next ops s c j kj vj ops' :
  history ops = Ok tt s c → spec_run ops !! j = Some (kj, vj) →
  result (next_after_delete j ops' s) = Some (kj, true, kj, vj).
Proof.
  intros Hrun Hj. destruct (history_inv _ _ _ Hrun) as (es & HR & Hv & Hd).
  rewrite <- Hv in Hj. unfold view in Hj.
  apply list_lookup_fmap_Some_1 in Hj as (x & Hxkv & Hx). simplify_eq.
  destruct (cursor_at_run _ _ _ _ HR Hx) as (e & s1 & c1 & Hcur & HR1 & _ & Hh1).
  unfold next_after_delete, bind. rewrite Hcur.
  pose proof Hh1 as (y & Hy & He & Hval & Hcell).
  assert (y = x) as -> by congruence.
  simpl in Hval. rewrite (Element_Key_run _ _ _ Hval). simpl.
  destruct (Delete_detaches _ _ _ _ HR1 Hx) as (s2 & c2 & Hdel & HR2 & Hvals & Hd2).
  rewrite Hdel. rewrite <- Hvals in Hval.
  destruct (run_ops_stale ops' _ _ _ _ _ HR2 Hd2 Hval)
    as (s3 & es3 & c3 & Hrun3 & HR3 & Hd3 & Hval3 & _).
  { rewrite list_fmap_delete. intros Hin. apply Hcell.
    by eapply list_elem_of_delete_inv. }
  rewrite Hrun3. rewrite <- He in Hd3.
  rewrite (Next_detached _ _ _ Hd3).
  by rewrite (Element_Key_run _ _ _ Hval3), (Element_Value_run _ _ _ Hval3).
Qed.

(** X8. A traversal only reads the map: it leaves the index, the list, its
    length and every cell allocated before as they were, so a second
    traversal yields the same sequence and [Get] and [Len] answer as
    before. *)
Theorem X8_traversal_only_reads ops s c :
  history ops = Ok tt s c →
  ∃ s' c',
    iterate (length ops) s = Ok (spec_run ops) s' c' ∧
    mapper s' = mapper s ∧ elems s' = elems s ∧
    lister s' = lister s ∧ len s' = len s ∧
    (∀ a, a < brk s → vals s' !! a = vals s !! a) ∧
    result (iterate (length ops) s') = Some (spec_run ops) ∧
    result (Len s') = result (Len s) ∧
    ∀ k, result (Get k s') = result (Get k s).
Proof.
  intros Hrun. destruct (history_inv _ _ _ Hrun) as (es & HR & Hv & Hd).
  pose proof (spec_run_length ops) as Hlen.
  rewrite <- Hv, view_length in Hlen.
  destruct (iterate_run _ _ (length ops) HR Hlen)
    as (s' & c' & Hit & HR' & Hm & Hl & Hn & He & _ & Hvals).
  destruct (iterate_run _ _ (length ops) HR' Hlen) as (s2 & c2 & Hit2 & _).
  exists s', c'. rewrite <- Hv.
  split; [done|]. split; [done|]. split; [done|]. split; [done|].
  split; [done|]. split; [done|]. split; [by rewrite Hit2|].
  split; [by rewrite !Len_run, Hn|].
  intros k. destruct (Get_spec _ _ k HR') as (c1 & -> & _).
  by destruct (Get_spec _ _ k HR) as (c3 & -> & _).
Qed.

(** X9. [First] and [Next] take a bounded number of steps, whatever the
    size of the map: [First] at most 8 ticks, [Next] on the handle of any
    entry at most 6. *)
Theorem X9_first_next_constant_cost ops s c :
  history ops = Ok tt s c →
  (∃ n, result (cost_of First s) = Some n ∧ n ≤ 8) ∧
  ∀ j kj vj, spec_run ops !! j = Some (kj, vj) →
    ∃ n, result ((oe <- cursor_at j;;
                  match oe with
                  | Some e => cost_of (Next e)
                  | None => panic
                  end) s) = Some n ∧ n ≤ 6.
Proof.
  intros Hrun. destruct (history_inv _ _ _ Hrun) as (es & HR & Hv & Hd).
  split.
  - unfold cost_of. destruct es as [|x es'] eqn:Hes.
    + rewrite (First_empty _ HR). exists 2. split; [done|lia].
    + rewrite (First_nonempty _ _ x HR) by done. exists 8. split; [done|lia].
  - intros j kj vj Hj. rewrite <- Hv in Hj. unfold view in Hj.
    apply list_lookup_fmap_Some_1 in Hj as (x & Hxkv & Hx). simplify_eq.
    destruct (cursor_at_run _ _ _ _ HR Hx) as (e & s1 & c1 & Hcur & HR1 & _ & Hh1).
    unfold bind. rewrite Hcur. unfold cost_of.
    pose proof Hh1 as (y & Hy & He & _). assert (y = x) as -> by congruence.
    destruct (decide (S j = length es)) as [Hl|Hm].
    + rewrite (Next_last _ _ _ _ _ HR1 Hx He Hl). exists 1. split; [done|lia].
    + destruct (lookup_lt_is_Some_2 es (S j)) as [x' Hx'].
      { apply lookup_lt_Some in Hx. lia. }
      rewrite (Next_more _ _ _ _ _ _ HR1 Hx He Hx'). exists 6. split; [done|lia].
Qed.

(** ** The channel iterator *)

Abbreviation Sys := (@Sys V).

Lemma Front_run s es :
  Rep s es →
  ∃ c, (l <- read_lister;; list_Front l) s = Ok (e_node <$> es !! 0) s c.
Proof.
  intros HR. unfold bind, read_lister, list_Front, bind, read_len, read_elem, ret.
  rewrite (rep_len _ _ HR). destruct es as [|x es'].
  - simpl. eauto.
  - assert ((Z.of_nat (length (x :: es')) =? 0)%Z = false) as ->
      by (apply Z.eqb_neq; simpl; lia).
    rewrite (rep_root _ _ HR). unfold node_at. simpl. eauto.
Qed.

Lemma load_item_run s es i x :
  Rep s es → es !! i = Some x →
  load_item (e_node x) s = Ok (item_of (e_key x, e_val x)) s 2.
Proof.
  intros HR Hx. unfold load_item, bind, read_elem, deref, read_val, ret.
  rewrite (rep_node _ _ HR i x Hx). simpl.
  rewrite (rep_cell _ _ HR x) by by eapply list_elem_of_lookup_2.
  reflexivity.
Qed.

Lemma list_Element_Next_run s es i x :
  Rep s es → es !! i = Some x →
  list_Element_Next (e_node x) s = Ok (e_node <$> es !! S i) s 1.
Proof.
  intros HR Hx. unfold list_Element_Next, bind, read_elem, ret.
  rewrite (rep_node _ _ HR i x Hx). simpl.
  destruct (es !! S i) as [x'|] eqn:Hx'.
  - rewrite (node_at_lookup _ _ _ _ Hx'). rewrite decide_False; [done|].
    intros [= Heq]. rewrite <- (node_at_lookup (lister s) _ _ _ Hx') in Heq.
    eapply node_at_ne_root; [apply (rep_nodes _ _ HR)| |exact Heq].
    by eapply lookup_lt_Some.
  - rewrite node_at_ge by by apply lookup_ge_None.
    by rewrite decide_True.
Qed.

Lemma items_lookup es i x :
  es !! i = Some x →
  (item_of <$> view es) !! i = Some (item_of (e_key x, e_val x)).
Proof.
  intros Hx. unfold view. by rewrite !list_lookup_fmap, Hx.
Qed.

Lemma items_length es : length (item_of <$> view es) = length es.
Proof. by rewrite length_fmap, view_length. Qed.

Lemma Iter_inv s es stop : IterInv s es stop (Iter s).
Proof.
  split; simpl; try done.
  - unfold sent. simpl. lia.
  - unfold chbufSize. lia.
  - intros v Hv. by apply elem_of_nil in Hv.
Qed.

Section Steps.
Variables (s : State) (es : list Entry) (stop : ElemVal → bool).
Hypothesis HR : Rep s es.

Lemma prod_step_inv st st' :
  IterInv s es stop st → prod_step st = Some st' →
  IterInv s es stop st' ∧ todo (length es) st' < todo (length es) st.
Proof.
  intros [Hheap Hitems Hsent Hbuf Hprod Hclosed Hcons].
  destruct st as [h p b cl co g]. unfold prod_step, todo, sent in *.
  simpl in *. subst h.
  destruct p as [|[e|]|e| |]; try done.
  - destruct (Front_run _ _ HR) as (c & ->). intros [= <-].
    split; [|simpl; lia].
    split; unfold sent; simpl; try done.
    + by rewrite Hprod.
    + rewrite Hclosed. split; intros; done.
  - case_decide as Hroom; [|done].
    destruct (es !! (length g + length b)) as [x|] eqn:Hx; [|done].
    simpl in Hprod. injection Hprod as ->.
    rewrite (load_item_run _ _ _ _ HR Hx). intros [= <-].
    pose proof (lookup_lt_Some _ _ _ Hx) as Hlt.
    split; [|simpl; rewrite length_app; simpl; lia].
    split; unfold sent; simpl; rewrite ?length_app; simpl; try done.
    + rewrite app_assoc, Hitems.
      replace (length g + (length b + 1)) with (S (length g + length b)) by lia.
      by rewrite (take_S_r _ _ _ (items_lookup _ _ _ Hx)).
    + lia.
    + lia.
    + exists (length g + length b). rewrite Hx. split; [lia|done].
    + rewrite Hclosed. split; intros; done.
    + destruct co; try done. destruct Hcons as (Hcl & _).
      by apply Hclosed in Hcl.
  - intros [= <-]. symmetry in Hprod.
    apply fmap_None, lookup_ge_None in Hprod.
    split; [|simpl; lia].
    split; unfold sent; simpl; try done.
    + lia.
    + destruct co; try done. by destruct Hcons as (_ & Hb & Hg).
  - destruct Hprod as (i & Hi & Hx).
    destruct (es !! i) as [x|] eqn:Hxi; [|done]. simpl in Hx. injection Hx as ->.
    rewrite (list_Element_Next_run _ _ _ _ HR Hxi). intros [= <-].
    split; [|simpl; lia].
    split; unfold sent; simpl; try done.
    + by rewrite Hi.
    + rewrite Hclosed. split; intros; done.
Qed.

Lemma cons_step_inv st st' :
  IterInv s es stop st → cons_step stop st = Some st' →
  IterInv s es stop st' ∧ todo (length es) st' < todo (length es) st.
Proof.
  intros [Hheap Hitems Hsent Hbuf Hprod Hclosed Hcons].
  destruct st as [h p b cl co g]. unfold cons_step, todo, sent in *.
  simpl in *. subst h.
  destruct co; try done.
  destruct b as [|v b].
  - destruct cl; [|done]. intros [= <-].
    split; [|destruct p; simpl; lia].
    split; unfold sent; simpl; try done.
  - intros [= <-]. simpl in Hsent.
    assert (length (g ++ [v]) + length b = length g + S (length b)) as Hs.
    { rewrite length_app. simpl. lia. }
    split; [|simpl; rewrite length_app; destruct (stop v), p; simpl; lia].
    split; unfold sent; simpl; rewrite ?Hs; try done.
    + by rewrite <- app_assoc.
    + simpl in Hbuf. lia.
    + destruct (stop v) eqn:Hv.
      * exists g, v. done.
      * intros w Hw. apply elem_of_app in Hw as [Hw|Hw]; [auto|].
        apply list_elem_of_singleton in Hw. by subst.
Qed.

Lemma step_inv t st st' :
  IterInv s es stop st → step stop t st = Some st' →
  IterInv s es stop st' ∧ todo (length es) st' < todo (length es) st.
Proof. destruct t; [apply prod_step_inv|apply cons_step_inv]. Qed.

Lemma run_inv sched : ∀ st,
  IterInv s es stop st →
  IterInv s es stop (run stop sched st) ∧
  work stop sched st + todo (length es) (run stop sched st) ≤ todo (length es) st.
Proof.
  induction sched as [|t sched IH]; intros st Hinv; simpl.
  - split; [done|lia].
  - destruct (step stop t st) as [st'|] eqn:Hstep; simpl.
    + destruct (step_inv _ _ _ Hinv Hstep) as [Hinv' Hlt].
      destruct (IH _ Hinv') as [Hinv2 Hle]. split; [done|lia].
    + by apply IH.
Qed.

Lemma run_app sched1 sched2 st :
  run stop (sched1 ++ sched2) st = run stop sched2 (run stop sched1 st).
Proof. revert st. induction sched1 as [|t sched1 IH]; intros st; simpl; auto. Qed.

(** What the received items are, by their number. *)
Lemma inv_got st :
  IterInv s es stop st → got st = take (length (got st)) (item_of <$> view es).
Proof.
  intros Hinv. pose proof (inv_items _ _ _ _ Hinv) as Hitems.
  apply (f_equal (take (length (got st)))) in Hitems.
  rewrite take_app_length, take_take in Hitems.
  replace (length (got st) `min` sent st) with (length (got st)) in Hitems
    by (unfold sent; lia).
  exact Hitems.
Qed.

(** When neither thread can move, either the loop has seen every item and
    the goroutine has returned, or the loop was left with [break]; in that
    case the goroutine has returned or waits at a send with the buffer
    full. *)
Lemma quiescent st :
  IterInv s es stop st → prod_step st = None → cons_step stop st = None →
  (consumer st = CEnded ∧ producer st = PReturned ∧
   got st = item_of <$> view es) ∨
  (consumer st = CBroke ∧
   (producer st = PReturned ∨
    ∃ e, producer st = PTest (Some e) ∧ length (ch_buf st) = chbufSize)).
Proof.
  intros Hinv Hp Hc.
  pose proof (inv_buf _ _ _ _ Hinv) as Hbuf.
  pose proof (inv_closed _ _ _ _ Hinv) as Hclosed.
  pose proof (inv_cons _ _ _ _ Hinv) as Hcons.
  pose proof (inv_prod _ _ _ _ Hinv) as Hprod.
  assert (producer st = PReturned ∨
          ∃ e, producer st = PTest (Some e) ∧ length (ch_buf st) = chbufSize)
    as Hprod'.
  { unfold prod_step in Hp.
    destruct (producer st) as [|[e|]|e| |] eqn:Hpr; try done.
    - by destruct ((l <- read_lister;; list_Front l) (heap st)).
    - right. exists e. split; [done|]. case_decide; [|lia].
      by destruct (load_item e (heap st)).
    - by destruct (list_Element_Next e (heap st)).
    - by left. }
  unfold cons_step in Hc.
  destruct (consumer st) eqn:Hco.
  - exfalso. destruct (ch_buf st) as [|v b] eqn:Hb; [|done].
    destruct (ch_closed st) eqn:Hcl; [done|].
    destruct Hprod' as [Hret|(e & _ & Hfull)].
    + apply Hclosed in Hret. congruence.
    + simpl in Hfull. unfold chbufSize in Hfull. lia.
  - left. destruct Hcons as (Hcl & Hb & _).
    apply Hclosed in Hcl. split; [done|]. split; [done|].
    rewrite Hcl in Hprod.
    pose proof (inv_got _ Hinv) as Hgot. unfold sent in Hprod.
    rewrite Hb in Hprod. simpl in Hprod.
    rewrite Hgot, take_ge; [done|]. rewrite items_length. lia.
  - by right.
Qed.

End Steps.

(** With a body that never breaks the loop is never left through [break]. *)
Lemma never_broke s es st :
  IterInv s es (λ _, false) st → consumer st ≠ CBroke.
Proof.
  intros Hinv Hc. pose proof (inv_cons _ _ _ _ Hinv) as Hcons.
  rewrite Hc in Hcons. by destruct Hcons as (g & v & _ & ? & _).
Qed.

Lemma round_robin_completes s es k : ∀ st,
  Rep s es → IterInv s es (λ _, false) st → todo (length es) st ≤ k →
  let st' := run (λ _, false) (round_robin k) st in
  consumer st' = CEnded ∧ producer st' = PReturned ∧
  got st' = item_of <$> view es.
Proof.
  induction k as [|k IH]; intros st HR Hinv Hk; simpl.
  - destruct (quiescent _ _ _ st Hinv) as [Hdone|[Hb _]]; [| |done|].
    + unfold todo in Hk. unfold prod_step.
      destruct (producer st) as [|[e|]|e| |]; try done; simpl in Hk; lia.
    + unfold todo in Hk. unfold cons_step.
      destruct (consumer st); try done; simpl in Hk; lia.
    + by eapply never_broke in Hb.
  - destruct (prod_step st) as [st1|] eqn:Hp; simpl.
    + destruct (prod_step_inv _ _ _ HR _ _ Hinv Hp) as [Hinv1 Hlt1].
      destruct (cons_step (λ _, false) st1) as [st2|] eqn:Hc; simpl.
      * destruct (cons_step_inv _ _ _ _ _ Hinv1 Hc) as [Hinv2 Hlt2].
        apply IH; [done|done|lia].
      * apply IH; [done|done|lia].
    + destruct (cons_step (λ _, false) st) as [st2|] eqn:Hc; simpl.
      * destruct (cons_step_inv _ _ _ _ _ Hinv Hc) as [Hinv2 Hlt2].
        apply IH; [done|done|lia].
      * apply IH; [done|done|].
        destruct (quiescent _ _ _ st Hinv Hp Hc) as [(Hco & Hpr & _)|[Hb _]].
        -- unfold todo. rewrite Hco, Hpr. simpl. lia.
        -- by eapply never_broke in Hb.
Qed.

Lemma history_items ops s c :
  history ops = Ok tt s c →
  ∃ es, Rep s es ∧ view es = spec_run ops ∧ length es = length (spec_run ops).
Proof.
  intros Hrun. destruct (history_inv _ _ _ Hrun) as (es & HR & Hv & _).
  exists es. split; [done|]. split; [done|]. by rewrite <- Hv, view_length.
Qed.

(** X10. The channel iterator of the earlier version, on a map with any
    history that nothing modifies meanwhile, under every schedule of the
    goroutine and the ranging caller: what the loop body has seen is always
    an initial part of the sequence, in order, without loss or repetition;
    when neither thread can move the body has seen the whole sequence, the
    goroutine has returned and the loop has ended; the two threads take at
    most [3 * Len + 3] steps together; the map is left as it was. *)
Theorem X10_Iter_in_order ops s c sched :
  history ops = Ok tt s c →
  let st := run (λ _, false) sched (Iter s) in
  got st `prefix_of` (item_of <$> spec_run ops) ∧
  heap st = s ∧
  work (λ _, false) sched (Iter s) ≤ 3 * length (spec_run ops) + 3 ∧
  (prod_step st = None → cons_step (λ _, false) st = None →
   got st = item_of <$> spec_run ops ∧
   producer st = PReturned ∧ consumer st = CEnded).
Proof.
  intros Hrun. destruct (history_items _ _ _ Hrun) as (es & HR & Hv & Hlen).
  destruct (run_inv _ _ (λ _, false) HR sched _ (Iter_inv s es _)) as [Hinv Hwork].
  simpl. rewrite <- Hlen, <- Hv. split.
  { rewrite (inv_got _ _ _ _ Hinv). apply prefix_take. }
  split; [apply (inv_heap _ _ _ _ Hinv)|]. split.
  { unfold todo at 2 in Hwork. simpl in Hwork. lia. }
  intros Hp Hc.
  destruct (quiescent _ _ _ _ Hinv Hp Hc) as [(Hco & Hpr & Hg)|[Hb _]]; [done|].
  by eapply never_broke in Hb.
Qed.

(** X11. If, from any point on, the goroutine and the ranging caller keep
    being scheduled in turn, the channel iterator ends: after at most
    [3 * Len + 3] further rounds the loop body has seen every entry of the
    map in sequence order, the channel is closed and empty, the goroutine
    has returned and the loop has ended. *)
Theorem X11_Iter_completes ops s c sched k :
  history ops = Ok tt s c → 3 * length (spec_run ops) + 3 ≤ k →
  let st := run (λ _, false) (sched ++ round_robin k) (Iter s) in
  got st = item_of <$> spec_run ops ∧
  ch_buf st = [] ∧ ch_closed st = true ∧
  producer st = PReturned ∧ consumer st = CEnded.
Proof.
  intros Hrun Hk. destruct (history_items _ _ _ Hrun) as (es & HR & Hv & Hlen).
  destruct (run_inv _ _ (λ _, false) HR sched _ (Iter_inv s es _)) as [Hinv Hwork].
  simpl. rewrite run_app.
  destruct (run_inv _ _ (λ _, false) HR (round_robin k) _ Hinv) as [Hinv' _].
  destruct (round_robin_completes s es k _ HR Hinv) as (Hco & Hpr & Hg).
  { unfold todo at 2 in Hwork. simpl in Hwork. lia. }
  rewrite <- Hv. split; [done|].
  pose proof (inv_cons _ _ _ _ Hinv') as Hcons. rewrite Hco in Hcons.
  destruct Hcons as (Hcl & Hb & _). done.
Qed.

(** X12. The goroutine leak the deprecation note speaks of: if the body of
    the ranging loop breaks at an entry that more than [chbufSize] entries
    follow, then under every schedule the goroutine of the channel iterator
    never returns and the channel is never closed; whenever the goroutine
    cannot move it waits at a send with the buffer full, and the loop body
    sees no entry after the one it broke at. *)
Theorem X12_Iter_leaks_on_break ops s c stop
    (l1 : list (string * any)) (kv : string * any) l2 sched :
  history ops = Ok tt s c →
  spec_run ops = l1 ++ kv :: l2 →
  stop (item_of kv) = true → chbufSize < length l2 →
  let st := run stop sched (Iter s) in
  producer st ≠ PReturned ∧ ch_closed st = false ∧
  got st `prefix_of` (item_of <$> (l1 ++ [kv])) ∧
  (prod_step st = None →
   ∃ e, producer st = PTest (Some e) ∧ length (ch_buf st) = chbufSize).
Proof.
  intros Hrun Hl Hx Hl2.
  destruct (history_items _ _ _ Hrun) as (es & HR & Hv & Hlen).
  destruct (run_inv _ _ stop HR sched _ (Iter_inv s es _)) as [Hinv _].
  simpl. set (st := run stop sched (Iter s)) in *.
  pose proof (inv_got _ _ _ _ Hinv) as Hgot. rewrite Hv, Hl in Hgot.
  pose proof (inv_sent _ _ _ _ Hinv) as Hsent.
  pose proof (inv_buf _ _ _ _ Hinv) as Hbuf.
  pose proof (inv_closed _ _ _ _ Hinv) as Hclosed.
  pose proof (inv_cons _ _ _ _ Hinv) as Hcons.
  pose proof (inv_prod _ _ _ _ Hinv) as Hprod.
  rewrite Hlen, Hl, length_app in Hsent. simpl in Hsent.
  assert (∀ g, (∀ w, w ∈ g → stop w = false) →
               g = take (length g) (item_of <$> (l1 ++ kv :: l2)) →
               length g ≤ length l1) as Hshort.
  { intros g Hg Heq. destruct (decide (length g ≤ length l1)) as [|Hgt]; [done|].
    exfalso. assert (item_of kv ∈ g) as Hin.
    { rewrite Heq. apply list_elem_of_lookup. exists (length l1).
      rewrite lookup_take_lt by lia. rewrite list_lookup_fmap.
      rewrite lookup_app_r by lia. by rewrite Nat.sub_diag. }
    apply Hg in Hin. congruence. }
  assert (length (got st) ≤ S (length l1)) as Hgl.
  { destruct (consumer st) eqn:Hco.
    - pose proof (Hshort _ Hcons Hgot). lia.
    - destruct Hcons as (_ & _ & Hg). pose proof (Hshort _ Hg Hgot). lia.
    - destruct Hcons as (g & v & Hgv & _ & Hg).
      rewrite Hgv in Hgot. rewrite length_app in Hgot. simpl in Hgot.
      assert (length g ≤ length l1) as Hgl.
      { apply Hshort; [done|].
        apply (f_equal (take (length g))) in Hgot.
        rewrite take_app_length, take_take in Hgot.
        rewrite Hgot at 1. f_equal. lia. }
      rewrite Hgv, length_app. simpl. lia. }
  assert (producer st ≠ PReturned) as Hnr.
  { intros Hret. rewrite Hret in Hprod. unfold sent in *.
    rewrite Hlen, Hl, length_app in Hprod. simpl in Hprod.
    unfold chbufSize in *. lia. }
  split; [done|]. split.
  { apply not_true_is_false. intros Hcl. by apply Hclosed in Hcl. }
  split.
  { rewrite Hgot. rewrite (cons_middle kv l1 l2), app_assoc, fmap_app.
    rewrite take_app_le by (rewrite length_fmap, length_app; simpl; lia).
    apply prefix_take. }
  intros Hp. unfold prod_step in Hp.
  destruct (producer st) as [|[e|]|e| |] eqn:Hpr; try done.
  - by destruct ((l <- read_lister;; list_Front l) (heap st)).
  - exists e. split; [done|]. case_decide; [|lia].
    by destruct (load_item e (heap st)).
  - by destruct (list_Element_Next e (heap st)).
Qed.

End Proofs.

(** * The claims on concrete maps *)

Lemma C1_witness :
  (∃ s c l0,
     history ((uncurry OpSet <$> [("a", Some 1%Z); ("b", Some 2%Z); ("c", Some 3%Z)])
              ++ (uncurry OpSet <$> [("b", Some 20%Z); ("a", None)])) = Ok tt s c ∧
     result (iterate 3 s) = Some l0 ∧ l0.*1 = ["a"; "b"; "c"]) ∧
  (∃ s c,
     history (abc ++ [OpDelete "b"]) = Ok tt s c ∧
     result (iterate 4 s) = Some (spec_run (abc ++ [OpDelete "b"])) ∧
     result ((Set_ "b" (Some 7%Z);; iterate 5) s)
       = Some (spec_run (abc ++ [OpDelete "b"]) ++ [("b", Some 7%Z)])).
Proof.
  apply (C1_insertion_order
           [("a", Some 1%Z); ("b", Some 2%Z); ("c", Some 3%Z)]
           [("b", Some 20%Z); ("a", None)] (abc ++ [OpDelete "b"]) "b" (Some 7%Z)).
  - by_decide.
  - by_decide.
  - by_decide.
Defined.

Lemma C3_witness :
  ∃ s c,
    history abc = Ok tt s c ∧
    ∃ cell l0,
      Set_ "b" (Some 20%Z) s
        = Ok tt (set_vals (<[cell := mkElemVal "b" (Some 20%Z)]> (vals s)) s) 3 ∧
      let s' := set_vals (<[cell := mkElemVal "b" (Some 20%Z)]> (vals s)) s in
      result (Get "b" s') = Some (Some 20%Z, true) ∧
      result (Len s') = result (Len s) ∧
      result (iterate (length abc) s) = Some l0 ∧
      result (iterate (length abc) s') = Some (spec_set "b" (Some 20%Z) l0) ∧
      (spec_set "b" (Some 20%Z) l0).*1 = l0.*1 ∧
      ∃ i v1, l0 !! i = Some ("b", v1) ∧
              spec_set "b" (Some 20%Z) l0 = <[i := ("b", Some 20%Z)]> l0.
Proof.
  eexists _, _. split; [vm_compute; reflexivity|].
  eapply (C3_set_present abc).
  - vm_compute. reflexivity.
  - by_decide.
Defined.

Lemma C4_witness :
  ∃ s c,
    history abc = Ok tt s c ∧
    result (iterate (length abc) s)
      = Some [("a", Some 1%Z); ("b", Some 2%Z); ("c", Some 3%Z)] ∧
    result (delete_at_cursor 0 (length abc) s)
      = Some [("b", Some 2%Z); ("c", Some 3%Z)].
Proof.
  eexists _, _. split; [vm_compute; reflexivity|].
  eapply (C4_delete_during_iteration abc _ _ 0).
  - vm_compute. reflexivity.
  - vm_compute. lia.
Defined.

Lemma C5_witness :
  ∃ s c,
    history abc = Ok tt s c ∧
    ∃ s' c',
      result (iterate (length abc) s)
        = Some ([("a", Some 1%Z)] ++ ("b", Some 2%Z) :: [("c", Some 3%Z)]) ∧
      Delete "b" s = Ok tt s' c' ∧
      result (iterate (length abc) s')
        = Some ([("a", Some 1%Z)] ++ [("c", Some 3%Z)]) ∧
      result (Len s')
        = Some (Z.of_nat (length ([("a", Some 1%Z)] ++ [("c", Some 3%Z)]))) ∧
      result (Get "b" s') = Some (None, false) ∧
      dom (mapper s') = dom (mapper s) ∖ {["b"]}.
Proof.
  eexists _, _. split; [vm_compute; reflexivity|].
  eapply (C5_delete_present abc).
  - vm_compute. reflexivity.
  - vm_compute. reflexivity.
Defined.

Lemma C6_witness :
  ∃ s c,
    history (abc ++ [OpDelete "a"]) = Ok tt s c ∧
    Get "a" s = Ok (None, false) s 1 ∧ Get "z" s = Ok (None, false) s 1.
Proof.
  eexists _, _. split; [vm_compute; reflexivity|]. split.
  - eapply (C6_get_absent (abc ++ [OpDelete "a"])).
    + vm_compute. reflexivity.
    + by_decide.
  - eapply (C6_get_absent (abc ++ [OpDelete "a"])).
    + vm_compute. reflexivity.
    + by_decide.
Defined.

Lemma C7_witness :
  ∃ s c,
    history abc = Ok tt s c ∧
    Delete "noone" s = Ok tt s 1 ∧
    ∀ A (m : M A),
      result ((Delete "noone";; m) s) = result (m s) ∧
      final ((Delete "noone";; m) s) = final (m s).
Proof.
  eexists _, _. split; [vm_compute; reflexivity|].
  apply C7_delete_absent. vm_compute. reflexivity.
Defined.

Lemma C9_witness :
  ∃ s c,
    history abc = Ok tt s c ∧
    result (iterate (length abc) s)
      = Some [("a", Some 1%Z); ("b", Some 2%Z); ("c", Some 3%Z)] ∧
    result (probe 1 "b" (Some 20%Z) (Some 99%Z) s)
      = Some (Some 2%Z, Some 2%Z, (Some 20%Z, true), (Some 20%Z, true), Some 99%Z).
Proof.
  eexists _, _. split; [vm_compute; reflexivity|].
  eapply (C9_element_is_a_copy abc _ _ 1 "b").
  - vm_compute. reflexivity.
  - vm_compute. reflexivity.
Defined.

Lemma C10_witness :
  ∃ s c,
    history abc = Ok tt s c ∧
    result (iterate (length abc) s) = Some (spec_run abc) ∧
    result (first_is_nil s) = Some (bool_decide (len s = 0%Z)) ∧
    result (Len s) = Some (len s) ∧
    (∀ j kj vj ops',
       spec_run abc !! j = Some (kj, vj) → kj ∉ deleted_keys ops' →
       result (next_is_nil j ops' s)
       = Some (bool_decide (last (spec_run (abc ++ ops')).*1 = Some kj))) ∧
    ∃ l0, result (iterate (Z.to_nat (len s)) s) = Some l0 ∧
          Z.of_nat (length l0) = len s.
Proof.
  eexists _, _. split; [vm_compute; reflexivity|].
  eapply (C10_end_of_traversal abc). vm_compute. reflexivity.
Defined.

(** C10 as stated fails on a handle whose entry has been deleted: on the map
    ["a", "b", "c"], after [e := m.First()] and [m.Delete("a")], [e.Next()]
    is nil although ["a"] is not the last entry (the sequence is then
    ["b", "c"]). *)
Lemma C10_counterexample :
  ¬ next_nil_iff_last (result ((New;; run_ops abc;; stale_next 3) blank)).
Proof.
  intros H.
  specialize (H "a" true [("b", Some 2%Z); ("c", Some 3%Z)]).
  assert (last [("b", Some 2%Z); ("c", Some 3%Z)].*1 = Some "a") as Hl.
  { apply H; [vm_compute; reflexivity|reflexivity]. }
  vm_compute in Hl. discriminate Hl.
Qed.

(** * The package's own tests, replayed *)

Example TestMapCreation : result ((New;; Len) (@blank Z)) = Some 0%Z.
Proof. reflexivity. Qed.

Example TestSet :
  result ((New;; Set_ "a" (Some 1%Z);; Set_ "b" (Some 2%Z);; Len) blank)
  = Some 2%Z.
Proof. vm_compute. reflexivity. Qed.

Example TestGet :
  result ((New;;
           g0 <- Get "a";;
           Set_ "a" (Some 1%Z);; Set_ "a" (Some 2%Z);;
           n <- Len;; g <- Get "a";;
           ret (g0, n, g)) blank)
  = Some ((None, false), 1%Z, (Some 2%Z, true)).
Proof. vm_compute. reflexivity. Qed.

Example TestDelete :
  result ((New;;
           Set_ "a" (Some 1%Z);; Delete "a";;
           n <- Len;; g <- Get "a";;
           Delete "noone";;
           ret (n, g)) blank)
  = Some (0%Z, (None, false)).
Proof. vm_compute. reflexivity. Qed.

(** Without the captured cursor the traversal of the package comment stops
    right after the first deletion; with it every entry is visited. *)
Example delete_without_capture :
  result ((New;; run_ops abc;; stale_next 3) blank)
  = Some ("a", true, [("b", Some 2%Z); ("c", Some 3%Z)]).
Proof. vm_compute. reflexivity. Qed.

Example TestLen :
  result ((New;; run_ops (numbered 100);; Len) blank) = Some 100%Z.
Proof. vm_compute. reflexivity. Qed.

(** [TestIterator], with the goroutine and the ranging loop taking turns:
    the loop body sees the hundred items in order, then the loop ends. *)
Example TestIterator :
  ∃ s c,
    history (numbered 100) = Ok tt s c ∧
    let st := run (λ _, false) (round_robin 303) (Iter s) in
    got st = (λ i, mkElemVal (pretty i) (Some (Z.of_nat i))) <$> seq 0 100 ∧
    consumer st = CEnded.
Proof.
  eexists _, _. split; [vm_compute; reflexivity|].
  vm_compute. split; reflexivity.
Qed.

(** * The further properties on concrete maps *)

Lemma X1_witness :
  ∃ s c,
    history abc = Ok tt s c ∧
    ∃ s' c',
      Set_ "b" (Some 9%Z) s = Ok tt s' c' ∧
      result (Get "b" s') = Some (Some 9%Z, true) ∧
      ∀ k', k' ≠ "b" → result (Get k' s') = result (Get k' s).
Proof.
  eexists _, _. split; [vm_compute; reflexivity|].
  eapply (X1_set_then_get abc).
  vm_compute. reflexivity.
Defined.

Lemma X2_witness :
  ∃ s c,
    history abc = Ok tt s c ∧
    ∃ s' c',
      Delete "b" s = Ok tt s' c' ∧
      result (Get "b" s') = Some (None, false) ∧
      (∀ k', k' ≠ "b" → result (Get k' s') = result (Get k' s)) ∧
      Delete "b" s' = Ok tt s' 1.
Proof.
  eexists _, _. split; [vm_compute; reflexivity|].
  eapply (X2_delete_then_get abc).
  vm_compute. reflexivity.
Defined.

Lemma X3_witness :
  ∃ s c,
    history abc = Ok tt s c ∧
    result ((Delete "a";; Set_ "a" (Some 7%Z);; iterate (S (length abc))) s)
      = Some ([] ++ [("b", Some 2%Z); ("c", Some 3%Z)] ++ [("a", Some 7%Z)]) ∧
    result ((Set_ "a" (Some 7%Z);; iterate (S (length abc))) s)
      = Some ([] ++ ("a", Some 7%Z) :: [("b", Some 2%Z); ("c", Some 3%Z)]).
Proof.
  eexists _, _. split; [vm_compute; reflexivity|].
  eapply (X3_delete_then_set_moves_to_tail abc _ _ "a" (Some 1%Z)).
  - vm_compute. reflexivity.
  - vm_compute. reflexivity.
Defined.

Lemma X4_witness :
  ∃ s c,
    history abc = Ok tt s c ∧
    ∃ l0,
      result ((Set_ "d" (Some 4%Z);; Set_ "d" (Some 5%Z);;
               iterate (S (length abc))) s) = Some l0 ∧
      result ((Set_ "d" (Some 5%Z);; iterate (S (length abc))) s) = Some l0 ∧
      result ((Set_ "d" (Some 4%Z);; Set_ "d" (Some 5%Z);; Get "d") s)
        = Some (Some 5%Z, true).
Proof.
  eexists _, _. split; [vm_compute; reflexivity|].
  eapply (X4_last_set_wins abc).
  vm_compute. reflexivity.
Defined.

Lemma X5_witness :
  ∃ s c,
    history (uncurry OpSet <$> [("x", Some 1%Z); ("y", None); ("z", Some 3%Z)])
      = Ok tt s c ∧
    result (iterate 3 s) = Some [("x", Some 1%Z); ("y", None); ("z", Some 3%Z)] ∧
    result (Len s) = Some 3%Z ∧
    ∀ i k v, [("x", Some 1%Z); ("y", None); ("z", Some 3%Z)] !! i = Some (k, v) →
             result (Get k s) = Some (v, true).
Proof.
  apply (X5_fresh_inserts [("x", Some 1%Z); ("y", None); ("z", Some 3%Z)]).
  by_decide.
Defined.

Lemma X6_witness :
  ∃ s c,
    history abc = Ok tt s c ∧
    ∃ s' c',
      drain (length abc) s = Ok (spec_run abc).*1 s' c' ∧
      result (Len s') = Some 0%Z ∧
      result (iterate 0 s') = Some [] ∧
      ∀ k, result (Get k s') = Some (None, false).
Proof.
  eexists _, _. split; [vm_compute; reflexivity|].
  eapply (X6_drain_empties_the_map abc).
  vm_compute. reflexivity.
Defined.

Lemma X7_witness :
  ∃ s c,
    history abc = Ok tt s c ∧
    result (next_after_delete 1 [OpSet "b" (Some 5%Z); OpDelete "a"] s)
      = Some ("b", true, "b", Some 2%Z).
Proof.
  eexists _, _. split; [vm_compute; reflexivity|].
  eapply (X7_deleted_handle_has_no_next abc _ _ 1 "b" (Some 2%Z)).
  - vm_compute. reflexivity.
  - vm_compute. reflexivity.
Defined.

Lemma X8_witness :
  ∃ s c,
    history abc = Ok tt s c ∧
    ∃ s' c',
      iterate (length abc) s = Ok (spec_run abc) s' c' ∧
      mapper s' = mapper s ∧ elems s' = elems s ∧
      lister s' = lister s ∧ len s' = len s ∧
      (∀ a, a < brk s → vals s' !! a = vals s !! a) ∧
      result (iterate (length abc) s') = Some (spec_run abc) ∧
      result (Len s') = result (Len s) ∧
      ∀ k, result (Get k s') = result (Get k s).
Proof.
  eexists _, _. split; [vm_compute; reflexivity|].
  eapply (X8_traversal_only_reads abc).
  vm_compute. reflexivity.
Defined.

Lemma X9_witness :
  ∃ s c,
    history abc = Ok tt s c ∧
    (∃ n, result (cost_of First s) = Some n ∧ n ≤ 8) ∧
    ∀ j kj vj, spec_run abc !! j = Some (kj, vj) →
      ∃ n, result ((oe <- cursor_at j;;
                    match oe with
                    | Some e => cost_of (Next e)
                    | None => panic
                    end) s) = Some n ∧ n ≤ 6.
Proof.
  eexists _, _. split; [vm_compute; reflexivity|].
  eapply (X9_first_next_constant_cost abc).
  vm_compute. reflexivity.
Defined.

Lemma X10_witness :
  ∃ s c,
    history abc = Ok tt s c ∧
    let st := run (λ _, false) [TProducer; TProducer; TConsumer; TConsumer;
                                TProducer; TProducer; TProducer] (Iter s) in
    got st `prefix_of` (item_of <$> spec_run abc) ∧
    heap st = s ∧
    work (λ _, false) [TProducer; TProducer; TConsumer; TConsumer;
                       TProducer; TProducer; TProducer] (Iter s)
      ≤ 3 * length (spec_run abc) + 3 ∧
    (prod_step st = None → cons_step (λ _, false) st = None →
     got st = item_of <$> spec_run abc ∧
     producer st = PReturned ∧ consumer st = CEnded).
Proof.
  eexists _, _. split; [vm_compute; reflexivity|].
  eapply (X10_Iter_in_order abc).
  vm_compute. reflexivity.
Defined.

Lemma X11_witness :
  ∃ s c,
    history abc = Ok tt s c ∧
    let st := run (λ _, false)
                  ([TConsumer; TProducer; TProducer] ++ round_robin 12) (Iter s) in
    got st = item_of <$> spec_run abc ∧
    ch_buf st = [] ∧ ch_closed st = true ∧
    producer st = PReturned ∧ consumer st = CEnded.
Proof.
  eexists _, _. split; [vm_compute; reflexivity|].
  eapply (X11_Iter_completes abc).
  - vm_compute. reflexivity.
  - vm_compute. lia.
Defined.

Lemma X12_witness :
  ∃ s c,
    history (numbered 40) = Ok tt s c ∧
    let st := run (λ _, true) (round_robin 60) (Iter s) in
    producer st ≠ PReturned ∧ ch_closed st = false ∧
    got st `prefix_of` (item_of <$> ([] ++ [("0", Some 0%Z)])) ∧
    (prod_step st = None →
     ∃ e, producer st = PTest (Some e) ∧ length (ch_buf st) = chbufSize).
Proof.
  eexists _, _. split; [vm_compute; reflexivity|].
  eapply (X12_Iter_leaks_on_break (numbered 40) _ _ (λ _, true)
            [] ("0", Some 0%Z) (tail (spec_run (numbered 40)))).
  - vm_compute. reflexivity.
  - vm_compute. reflexivity.
  - reflexivity.
  - vm_compute. lia.
Defined.
